(** * intrusive::list — a shallow embedding of the link-node algorithms

    The C++ sources ([intrusive_list.h], [intrusive_list.cpp]) implement an
    intrusive circular doubly-linked list.  Every object that takes part in
    a list (an element, or the sentinel [fake] owned by a list) contains one
    [list_element_base], a pair of raw pointers [prev] and [next].

    The embedding keeps the pointer structure: a store maps an address to the
    [list_element_base] living there, a raw pointer is an [option addr]
    ([None] is [nullptr]), and every member function becomes a function on
    the store that returns an [outcome]: the new store, a failed [assert], or
    undefined behaviour (a null or dangling dereference). *)

From stdpp Require Import base option list gmap fin_maps.

Set Default Proof Using "Type".
Local Set Warnings "-clear-no-such-hyp".

(** ** Pointers, nodes and the store *)

Definition addr := positive.

(** [list_element_base* ] *)
Definition ptr := option addr.

Definition nullptr : ptr := None.

(** [struct list_element_base { list_element_base* prev; list_element_base* next; }] *)
Record list_element_base := mk_base {
  prev : ptr;
  next : ptr
}.

Global Instance list_element_base_eq_dec : EqDecision list_element_base.
Proof. solve_decision. Defined.

Abbreviation heap := (gmap addr list_element_base).

(** The two members, as selectors: an lvalue such as [first.prev->next] is a
    pair of an address and a member. *)
Inductive field := Prev | Next.

Global Instance field_eq_dec : EqDecision field.
Proof. solve_decision. Defined.

Definition get_field (f : field) (n : list_element_base) : ptr :=
  match f with Prev => prev n | Next => next n end.

Definition set_field (f : field) (v : ptr) (n : list_element_base) : list_element_base :=
  match f with
  | Prev => {| prev := v; next := next n |}
  | Next => {| prev := prev n; next := v |}
  end.

(** ** Outcomes

    [Done] is normal completion.  [AssertFailed] is a failed [assert] of a
    debug build.  [Undefined] is a dereference of [nullptr] or of an address
    at which no object lives.  [OutOfFuel] belongs to the embedding only: the
    loops of the source are run with a bound on the number of iterations. *)

Inductive outcome (A : Type) : Type :=
  | Done (a : A)
  | AssertFailed
  | Undefined
  | OutOfFuel.

Arguments Done {A} a.
Arguments AssertFailed {A}.
Arguments Undefined {A}.
Arguments OutOfFuel {A}.

Global Instance outcome_ret : MRet outcome := λ A a, Done a.

Global Instance outcome_bind : MBind outcome := λ A B k m,
  match m with
  | Done a => k a
  | AssertFailed => AssertFailed
  | Undefined => Undefined
  | OutOfFuel => OutOfFuel
  end.

(** [assert(b)] *)
Definition assert (b : bool) : outcome unit :=
  if b then Done tt else AssertFailed.

(** [*p] for a raw pointer [p] *)
Definition deref (p : ptr) : outcome addr :=
  match p with
  | Some a => Done a
  | None => Undefined
  end.

(** Reading the member [f] of the object at [a]. *)
Definition load (h : heap) (a : addr) (f : field) : outcome ptr :=
  match h !! a with
  | Some n => Done (get_field f n)
  | None => Undefined
  end.

(** Writing the member [f] of the object at [a]. *)
Definition store (h : heap) (a : addr) (f : field) (v : ptr) : outcome heap :=
  match h !! a with
  | Some n => Done (<[a := set_field f v n]> h)
  | None => Undefined
  end.

(** ** intrusive_list.cpp: the member functions of [list_element_base] *)

(** An lvalue of type [list_element_base*]: a member of an object. *)
Definition lvalue : Type := addr * field.

Module Base.

(** [template <typename T> void triswap(T& a, T& b, T& c)]:
    [T copy = a; a = b; b = c; c = copy;] on three lvalues that may alias. *)
Definition triswap (h : heap) (a b c : lvalue) : outcome heap :=
  copy ← load h a.1 a.2;
  vb ← load h b.1 b.2;
  h1 ← store h a.1 a.2 vb;
  vc ← load h1 c.1 c.2;
  h2 ← store h1 b.1 b.2 vc;
  store h2 c.1 c.2 copy.

(** [void list_element_base::unlink()] *)
Definition unlink (h : heap) (this : addr) : outcome heap :=
  p ← load h this Prev;
  _ ← assert (bool_decide (p ≠ nullptr));
  n ← load h this Next;
  _ ← assert (bool_decide (n ≠ nullptr));
  _ ← assert (bool_decide (p ≠ Some this));
  _ ← assert (bool_decide (n ≠ Some this));
  (* prev->next = next; *)
  p1 ← load h this Prev;
  a1 ← deref p1;
  v1 ← load h this Next;
  h1 ← store h a1 Next v1;
  (* next->prev = prev; *)
  n2 ← load h1 this Next;
  a2 ← deref n2;
  v2 ← load h1 this Prev;
  h2 ← store h1 a2 Prev v2;
  (* prev = nullptr; next = nullptr; *)
  h3 ← store h2 this Prev nullptr;
  store h3 this Next nullptr.

(** [void list_element_base::try_unlink()] *)
Definition try_unlink (h : heap) (this : addr) : outcome heap :=
  p ← load h this Prev;
  n ← load h this Next;
  _ ← assert (bool_decide ((p = nullptr) ↔ (n = nullptr)));
  if bool_decide (p ≠ nullptr) then unlink h this else Done h.

(** The [while (p != this)] loop of [clear], run for at most [fuel]
    iterations. *)
Fixpoint clear_loop (fuel : nat) (h : heap) (p : ptr) (this : addr) : outcome heap :=
  if bool_decide (p ≠ Some this) then
    match fuel with
    | O => OutOfFuel
    | S fuel' =>
        a ← deref p;
        n ← load h a Next;
        h1 ← store h a Prev nullptr;
        h2 ← store h1 a Next nullptr;
        clear_loop fuel' h2 n this
    end
  else Done h.

(** [void list_element_base::clear()] *)
Definition clear (fuel : nat) (h : heap) (this : addr) : outcome heap :=
  p ← load h this Next;
  h1 ← clear_loop fuel h p this;
  h2 ← store h1 this Prev (Some this);
  store h2 this Next (Some this).

(** [void list_element_base::insert(list_element_base& obj)] *)
Definition insert (h : heap) (this obj : addr) : outcome heap :=
  (* obj.next = this; *)
  h1 ← store h obj Next (Some this);
  (* obj.prev = prev; *)
  v ← load h1 this Prev;
  h2 ← store h1 obj Prev v;
  (* prev->next = &obj; *)
  p ← load h2 this Prev;
  a ← deref p;
  h3 ← store h2 a Next (Some obj);
  (* prev = &obj; *)
  store h3 this Prev (Some obj).

(** [void list_element_base::splice(list_element_base& first, list_element_base& last)] *)
Definition splice (h : heap) (this first last : addr) : outcome heap :=
  if bool_decide (first = last) then Done h
  else
    (* the lvalues prev->next, first.prev->next, last.prev->next *)
    p ← load h this Prev;
    pa ← deref p;
    fp ← load h first Prev;
    fa ← deref fp;
    lp ← load h last Prev;
    la ← deref lp;
    h1 ← triswap h (pa, Next) (fa, Next) (la, Next);
    triswap h1 (this, Prev) (last, Prev) (first, Prev).

End Base.

(** ** intrusive_list.h *)

(** [to_base<Tag>(obj)] and [from_base<T, Tag>(base)] are [static_cast]s
    between an element and the [list_element<Tag>] it derives from.  An
    element is identified with the address of that sub-object, so both casts
    keep the address. *)
Definition to_base (obj : addr) : addr := obj.
Definition from_base (b : addr) : addr := b.

Module Element.

(** [list_element() : list_element_base{nullptr, nullptr}] *)
Definition ctor (h : heap) (this : addr) : heap :=
  <[this := mk_base nullptr nullptr]> h.

(** [~list_element() { try_unlink(); }] *)
Definition dtor (h : heap) (this : addr) : outcome heap :=
  Base.try_unlink h this.

(** Destroying an element: the destructor runs, then the object is gone. *)
Definition destroy (h : heap) (this : addr) : outcome heap :=
  h1 ← dtor h this;
  mret (delete this h1).

End Element.

(** [struct list_iterator { list_element_base* current; }] *)
Record list_iterator := mk_iter { current : ptr }.

Global Instance list_iterator_eq_dec : EqDecision list_iterator.
Proof. solve_decision. Defined.

Module Iter.

(** [T& operator*() const { return from_base<T, Tag>( *current); }] *)
Definition star (it : list_iterator) : outcome addr :=
  a ← deref (current it);
  mret (from_base a).

(** [operator++(): current = current->next] *)
Definition incr (h : heap) (it : list_iterator) : outcome list_iterator :=
  a ← deref (current it);
  n ← load h a Next;
  mret (mk_iter n).

(** [operator--(): current = current->prev] *)
Definition decr (h : heap) (it : list_iterator) : outcome list_iterator :=
  a ← deref (current it);
  p ← load h a Prev;
  mret (mk_iter p).

(** [operator==] and [operator!=] *)
Definition eq (it rhs : list_iterator) : bool :=
  bool_decide (current it = current rhs).
Definition neq (it rhs : list_iterator) : bool :=
  bool_decide (current it ≠ current rhs).

(** [T* operator->() const { return &from_base<T, Tag>( *current); }] *)
Definition arrow (it : list_iterator) : outcome addr :=
  a ← deref (current it);
  mret (from_base a).

(** [list_iterator operator++(int)]: [copy = *this; ++*this; return copy;].
    The result is the new value of [*this] and the returned copy. *)
Definition post_incr (h : heap) (it : list_iterator)
    : outcome (list_iterator * list_iterator) :=
  let copy := it in
  it' ← incr h it;
  mret (it', copy).

(** [list_iterator operator--(int)]: [copy = *this; --*this; return copy;] *)
Definition post_decr (h : heap) (it : list_iterator)
    : outcome (list_iterator * list_iterator) :=
  let copy := it in
  it' ← decr h it;
  mret (it', copy).

(** The converting constructor from the non-const iterator:
    [current(other.current)]. *)
Definition convert (other : list_iterator) : list_iterator :=
  mk_iter (current other).

End Iter.

(** A [list<T, Tag>] has the single member [fake]; the list is identified
    with the address of that member. *)
Module IList.

(** [list() : fake{&fake, &fake}] *)
Definition ctor (h : heap) (this : addr) : heap :=
  <[this := mk_base (Some this) (Some this)]> h.

(** [iterator begin() { return iterator(fake.next); }] *)
Definition begin (h : heap) (this : addr) : outcome list_iterator :=
  n ← load h this Next;
  mret (mk_iter n).

(** [iterator end() { return iterator(&fake); }] *)
Definition end_ (this : addr) : list_iterator := mk_iter (Some this).

(** [bool empty() const { return fake.prev == &fake; }] *)
Definition empty (h : heap) (this : addr) : outcome bool :=
  p ← load h this Prev;
  mret (bool_decide (p = Some this)).

(** [void splice(const_iterator pos, list&, const_iterator first, const_iterator last)]:
    [pos.current->splice( *first.current, *last.current)].  The [list&]
    parameter is unnamed in the source. *)
Definition splice (h : heap) (this : addr) (pos : list_iterator) (other : addr)
    (first last : list_iterator) : outcome heap :=
  a ← deref (current pos);
  f ← deref (current first);
  l ← deref (current last);
  Base.splice h a f l.

(** [list(list&& other) : list() { splice(end(), other, other.begin(), other.end()); }] *)
Definition move_ctor (h : heap) (this other : addr) : outcome heap :=
  let h0 := ctor h this in
  b ← begin h0 other;
  splice h0 this (end_ this) other b (end_ other).

(** [~list() { fake.clear(); }] *)
Definition dtor (fuel : nat) (h : heap) (this : addr) : outcome heap :=
  Base.clear fuel h this.

(** [list& operator=(list&& other)]:
    [fake.clear(); splice(end(), other, other.begin(), other.end());] *)
Definition move_assign (fuel : nat) (h : heap) (this other : addr) : outcome heap :=
  h1 ← Base.clear fuel h this;
  b ← begin h1 other;
  splice h1 this (end_ this) other b (end_ other).

(** [void clear() { fake.clear(); }] *)
Definition clear (fuel : nat) (h : heap) (this : addr) : outcome heap :=
  Base.clear fuel h this.

(** [void push_back(T& obj) { fake.insert(to_base<Tag>(obj)); }] *)
Definition push_back (h : heap) (this obj : addr) : outcome heap :=
  Base.insert h this (to_base obj).

(** [void pop_back() { fake.prev->unlink(); }] *)
Definition pop_back (h : heap) (this : addr) : outcome heap :=
  p ← load h this Prev;
  a ← deref p;
  Base.unlink h a.

(** [T& back() { return from_base<T, Tag>( *fake.prev); }] *)
Definition back (h : heap) (this : addr) : outcome addr :=
  p ← load h this Prev;
  a ← deref p;
  mret (from_base a).

(** [void push_front(T& obj) { fake.next->insert(to_base<Tag>(obj)); }] *)
Definition push_front (h : heap) (this obj : addr) : outcome heap :=
  n ← load h this Next;
  a ← deref n;
  Base.insert h a (to_base obj).

(** [void pop_front() { fake.next->unlink(); }] *)
Definition pop_front (h : heap) (this : addr) : outcome heap :=
  n ← load h this Next;
  a ← deref n;
  Base.unlink h a.

(** [T& front() { return from_base<T, Tag>( *fake.next); }] *)
Definition front (h : heap) (this : addr) : outcome addr :=
  n ← load h this Next;
  a ← deref n;
  mret (from_base a).

(** [iterator insert(const_iterator pos, T& obj)] *)
Definition insert (h : heap) (this : addr) (pos : list_iterator) (obj : addr)
    : outcome (heap * list_iterator) :=
  let base := to_base obj in
  a ← deref (current pos);
  h1 ← Base.insert h a base;
  mret (h1, mk_iter (Some base)).

(** [iterator erase(const_iterator pos)] *)
Definition erase (h : heap) (this : addr) (pos : list_iterator)
    : outcome (heap * list_iterator) :=
  a ← deref (current pos);
  nxt ← load h a Next;
  a' ← deref (current pos);
  h1 ← Base.unlink h a';
  mret (h1, mk_iter nxt).

End IList.

(** * Reasoning about the store *)

(** ** Members as partial functions of the store *)

(** [rd h a f] is the value of member [f] of the object at [a], if an object
    lives there; [upd h a f v] overwrites that member. *)
Definition rd (h : heap) (a : addr) (f : field) : option ptr :=
  get_field f <$> h !! a.

Definition upd (h : heap) (a : addr) (f : field) (v : ptr) : heap :=
  alter (set_field f v) a h.

Definition alloc (h : heap) (a : addr) : Prop := is_Some (h !! a).

(** [a.next == b] and [b.prev == a]: one consistent link of a ring. *)
Definition links (h : heap) (a b : addr) : Prop :=
  rd h a Next = Some (Some b) ∧ rd h b Prev = Some (Some a).

(** The unlinked state: both pointers are null. *)
Definition unlinked (h : heap) (a : addr) : Prop :=
  h !! a = Some (mk_base nullptr nullptr).

(** [path h a l]: starting from [a], every node of [l] is linked to the one
    before it. *)
Fixpoint path (h : heap) (a : addr) (l : list addr) : Prop :=
  match l with
  | [] => True
  | b :: t => links h a b ∧ path h b t
  end.

(** The ring of a list: from the sentinel through the elements [xs] and back
    to the sentinel, without repetition. *)
Definition is_list (h : heap) (fake : addr) (xs : list addr) : Prop :=
  path h fake (xs ++ [fake]) ∧ NoDup (fake :: xs).

(** A ring of nodes, none of which is distinguished. *)
Definition ring (h : heap) (l : list addr) : Prop :=
  match l with
  | [] => False
  | a :: t => is_list h a t
  end.

(** The state of a single node that the data model allows: unlinked, or
    linked with [N.prev->next == N] and [N.next->prev == N]. *)
Definition node_ok (h : heap) (a : addr) : Prop :=
  unlinked h a ∨ ∃ p n, links h p a ∧ links h a n.

Definition wf (h : heap) : Prop := ∀ a, alloc h a → node_ok h a.

(** [node_ok], computed. *)
Definition node_okb (h : heap) (a : addr) : bool :=
  match h !! a with
  | Some nd =>
      match prev nd, next nd with
      | None, None => true
      | Some p, Some n =>
          bool_decide (rd h p Next = Some (Some a)) &&
          bool_decide (rd h n Prev = Some (Some a))
      | _, _ => false
      end
  | None => false
  end.

(** [wf], computed. *)
Definition wfb (h : heap) : bool :=
  bool_decide (map_Forall (λ a _, node_okb h a = true) h).

(** The forbidden state: exactly one of the two pointers is null. *)
Definition half_linked (h : heap) (a : addr) : Prop :=
  ∃ n, h !! a = Some n ∧ ¬ (prev n = nullptr ↔ next n = nullptr).

(** ** Traversals, as a client of the list would write them *)

(** [for (it = from; it != end(); ++it) out.push_back( *it)] *)
Fixpoint walk_fwd (fuel : nat) (h : heap) (it stop : list_iterator) : outcome (list addr) :=
  if Iter.neq it stop then
    match fuel with
    | O => OutOfFuel
    | S fuel' =>
        x ← Iter.star it;
        it' ← Iter.incr h it;
        rest ← walk_fwd fuel' h it' stop;
        mret (x :: rest)
    end
  else mret [].

(** [for (it = from; it != stop; --it) out.push_back( *it)] *)
Fixpoint walk_bwd (fuel : nat) (h : heap) (it stop : list_iterator) : outcome (list addr) :=
  if Iter.neq it stop then
    match fuel with
    | O => OutOfFuel
    | S fuel' =>
        x ← Iter.star it;
        it' ← Iter.decr h it;
        rest ← walk_bwd fuel' h it' stop;
        mret (x :: rest)
    end
  else mret [].

(** The elements of a list in iteration order, [begin()] to [end()]. *)
Definition contents (fuel : nat) (h : heap) (this : addr) : outcome (list addr) :=
  b ← IList.begin h this;
  walk_fwd fuel h b (IList.end_ this).

(** The elements of a list in reverse iteration order: from the node before
    [end()] backwards until [end()] is met again. *)
Definition contents_rev (fuel : nat) (h : heap) (this : addr) : outcome (list addr) :=
  b ← Iter.decr h (IList.end_ this);
  walk_bwd fuel h b (IList.end_ this).

(** The reference behaviour that [splice] is compared with.  The elements
    of the range [[first, last)] are collected by a traversal; then each of
    them is erased from its list [X] and inserted before [pos] into [Y], one
    element at a time
    ([for (T* x : range) { X.erase(iterator(x)); Y.insert(pos, *x); }]). *)
Fixpoint erase_insert_each (h : heap) (X Y : addr) (pos : list_iterator)
    (range : list addr) : outcome heap :=
  match range with
  | [] => mret h
  | x :: rest =>
      r ← IList.erase h X (mk_iter (Some (to_base x)));
      r' ← IList.insert r.1 Y pos x;
      erase_insert_each r'.1 X Y pos rest
  end.

Definition splice_reference (fuel : nat) (h : heap) (X Y : addr)
    (pos first last : list_iterator) : outcome heap :=
  range ← walk_fwd fuel h first last;
  erase_insert_each h X Y pos range.

(** The other reading of the same sentence: all elements of the range are
    erased first, and then all of them are inserted before [pos]. *)
Fixpoint erase_each (h : heap) (X : addr) (range : list addr) : outcome heap :=
  match range with
  | [] => mret h
  | x :: rest =>
      r ← IList.erase h X (mk_iter (Some (to_base x)));
      erase_each r.1 X rest
  end.

Fixpoint insert_each (h : heap) (Y : addr) (pos : list_iterator)
    (range : list addr) : outcome heap :=
  match range with
  | [] => mret h
  | x :: rest =>
      r ← IList.insert h Y pos x;
      insert_each r.1 Y pos rest
  end.

Definition splice_reference_two_phase (fuel : nat) (h : heap) (X Y : addr)
    (pos first last : list_iterator) : outcome heap :=
  range ← walk_fwd fuel h first last;
  h1 ← erase_each h X range;
  insert_each h1 Y pos range.

(** [std::advance(it, n)] for [n >= 0]: [n] times [++it]. *)
Fixpoint advance (h : heap) (n : nat) (it : list_iterator) : outcome list_iterator :=
  match n with
  | O => mret it
  | S k => it' ← Iter.incr h it; advance h k it'
  end.

(** [std::next(l.begin(), i)] *)
Definition nth_iterator (h : heap) (this : addr) (i : nat) : outcome list_iterator :=
  b ← IList.begin h this;
  advance h i b.

(** The scenario of the specification for [erase]: [A], [B], [C] are pushed
    with [push_back]; the element [B] is erased; [front()], [back()] and
    [empty()] are observed; then [A] and [C] are erased and [empty()] is
    observed again.  The result collects what the erase of [B] returned
    (dereferenced) and the four observations. *)
Definition erase_scenario (h : heap) (l A B C : addr)
    : outcome (addr * addr * addr * bool * bool) :=
  h1 ← IList.push_back h l A;
  h2 ← IList.push_back h1 l B;
  h3 ← IList.push_back h2 l C;
  r ← IList.erase h3 l (mk_iter (Some (to_base B)));
  c ← Iter.star r.2;
  f ← IList.front r.1 l;
  b ← IList.back r.1 l;
  e ← IList.empty r.1 l;
  r1 ← IList.erase r.1 l (mk_iter (Some (to_base A)));
  r2 ← IList.erase r1.1 l (mk_iter (Some (to_base C)));
  e' ← IList.empty r2.1 l;
  mret (c, f, b, e, e').

(** [std::swap(a, b)] for a type that has no [swap] of its own, which the
    comment in the move constructor relies on:
    [list tmp(std::move(a)); a = std::move(b); b = std::move(tmp);], after
    which the temporary is destroyed.  [tmp] is the address at which the
    temporary is constructed. *)
Definition swap_by_moves (fuel : nat) (h : heap) (a b tmp : addr) : outcome heap :=
  h1 ← IList.move_ctor h tmp a;
  h2 ← IList.move_assign fuel h1 a b;
  h3 ← IList.move_assign fuel h2 b tmp;
  h4 ← IList.dtor fuel h3 tmp;
  mret (delete tmp h4).

(** The number of objects whose [next] is not null: a bound on the number
    of iterations that the loop of [clear] can still make. *)
Definition linked_count (h : heap) : nat :=
  size (filter (λ kv, next kv.2 ≠ nullptr) h).

(** ** Concrete stores

    Addresses: the sentinel of the list at [1], elements [A], [B], [C] at
    [2], [3], [4]; a second list object may be constructed at [5]. *)

(** Storage with an empty list at [1] and three fresh elements. *)
Definition demo_fresh : heap :=
  Element.ctor (Element.ctor (Element.ctor (IList.ctor ∅ 1%positive) 2%positive)
    3%positive) 4%positive.

(** The list at [1] holds [A; B]. *)
Definition demo_AB : heap :=
  {[ 1%positive := mk_base (Some 3%positive) (Some 2%positive);
     2%positive := mk_base (Some 1%positive) (Some 3%positive);
     3%positive := mk_base (Some 2%positive) (Some 1%positive);
     4%positive := mk_base nullptr nullptr ]}.

(** The list at [1] holds [A; B; C]. *)
Definition demo_ABC : heap :=
  {[ 1%positive := mk_base (Some 4%positive) (Some 2%positive);
     2%positive := mk_base (Some 1%positive) (Some 3%positive);
     3%positive := mk_base (Some 2%positive) (Some 4%positive);
     4%positive := mk_base (Some 3%positive) (Some 1%positive) ]}.

(** Two lists: the one at [1] holds [A; B], the one at [5] holds [C]. *)
Definition demo_two : heap :=
  {[ 1%positive := mk_base (Some 3%positive) (Some 2%positive);
     2%positive := mk_base (Some 1%positive) (Some 3%positive);
     3%positive := mk_base (Some 2%positive) (Some 1%positive);
     4%positive := mk_base (Some 5%positive) (Some 5%positive);
     5%positive := mk_base (Some 4%positive) (Some 4%positive) ]}.

(** [l.splice(l.end(), l, l.begin(), l.end())] on the list [A; B], followed
    by the observations [empty()], a forward and a backward traversal. *)
Definition splice_to_end_observed (h : heap) (l : addr)
    : outcome (heap * bool * list addr * list addr) :=
  b ← IList.begin h l;
  h' ← IList.splice h l (IList.end_ l) l b (IList.end_ l);
  e ← IList.empty h' l;
  fwd ← contents 4 h' l;
  bwd ← contents_rev 4 h' l;
  mret (h', e, fwd, bwd).

(** The same call replaced by the element-wise reference, in both
    readings. *)
Definition erase_insert_to_end_observed (h : heap) (l : addr)
    : outcome (heap * bool * list addr * list addr) :=
  b ← IList.begin h l;
  h' ← splice_reference 4 h l l (IList.end_ l) b (IList.end_ l);
  e ← IList.empty h' l;
  fwd ← contents 4 h' l;
  bwd ← contents_rev 4 h' l;
  mret (h', e, fwd, bwd).

Definition two_phase_to_end_observed (h : heap) (l : addr)
    : outcome (heap * bool * list addr * list addr) :=
  b ← IList.begin h l;
  h' ← splice_reference_two_phase 4 h l l (IList.end_ l) b (IList.end_ l);
  e ← IList.empty h' l;
  fwd ← contents 4 h' l;
  bwd ← contents_rev 4 h' l;
  mret (h', e, fwd, bwd).

(** The store after [l.splice(l.end(), l, l.begin(), l.end())] on [demo_AB]. *)
Definition demo_AB_spliced : heap :=
  {[ 1%positive := mk_base (Some 1%positive) (Some 2%positive);
     2%positive := mk_base (Some 3%positive) (Some 3%positive);
     3%positive := mk_base (Some 2%positive) (Some 1%positive);
     4%positive := mk_base nullptr nullptr ]}.

(** ** The stores that the member functions produce

    Each function of [list_element_base] that completes performs a fixed
    sequence of member writes; the resulting store is written out here. *)

(** [a->unlink()] where [a.prev == p] and [a.next == n]. *)
Definition unlink_heap (h : heap) (p a n : addr) : heap :=
  upd (upd (upd (upd h p Next (Some n)) n Prev (Some p)) a Prev nullptr) a Next nullptr.

(** [this->insert(obj)] where [this->prev == p]. *)
Definition insert_heap (h : heap) (p this obj : addr) : heap :=
  upd (upd (upd (upd h obj Next (Some this)) obj Prev (Some p)) p Next (Some obj))
    this Prev (Some obj).

(** [triswap(a, b, c)] on three different lvalues holding [va], [vb], [vc]. *)
Definition rot3 (h : heap) (a b c : lvalue) (va vb vc : ptr) : heap :=
  upd (upd (upd h a.1 a.2 vb) b.1 b.2 vc) c.1 c.2 va.

(** [this->splice(first, last)] where [this->prev == P], [first.prev == F]
    and [last.prev == L], all six lvalues being different. *)
Definition splice_heap (h : heap) (P F L this first last : addr) : heap :=
  upd (upd (upd (upd (upd (upd h
    P Next (Some first)) F Next (Some last)) L Next (Some this))
    this Prev (Some L)) last Prev (Some F)) first Prev (Some P).

(** One iteration of the loop of [clear]: the node becomes unlinked. *)
Definition reset_heap (h : heap) (a : addr) : heap :=
  upd (upd h a Prev nullptr) a Next nullptr.

(** [this->clear()] where the ring of [this] holds the nodes [xs]. *)
Definition clear_heap (h : heap) (this : addr) (xs : list addr) : heap :=
  upd (upd (foldl reset_heap h xs) this Prev (Some this)) this Next (Some this).

(** The last node of the non-empty sequence [a :: l], and the sequence
    without it. *)
Fixpoint end_of (a : addr) (l : list addr) : addr :=
  match l with
  | [] => a
  | b :: t => end_of b t
  end.

Fixpoint front_of (a : addr) (l : list addr) : list addr :=
  match l with
  | [] => []
  | b :: t => a :: front_of b t
  end.

(** * Lemmas *)

(** ** The outcome monad *)

Lemma bind_Done {A B} (a : A) (k : A → outcome B) : (Done a ≫= k) = k a.
Proof. reflexivity. Qed.

Lemma bind_Done_inv {A B} (m : outcome A) (k : A → outcome B) (b : B) :
  (m ≫= k) = Done b → ∃ a, m = Done a ∧ k a = Done b.
Proof. destruct m; try discriminate. intros H. by exists a. Qed.

(** ** Reading and writing members *)

Lemma rd_alloc h a f v : rd h a f = Some v → alloc h a.
Proof. unfold rd, alloc. destruct (h !! a); naive_solver. Qed.

Lemma alloc_rd h a f : alloc h a → is_Some (rd h a f).
Proof. unfold rd, alloc. intros [n ->]. by eexists. Qed.

Lemma alloc_upd h a f v b : alloc (upd h a f v) b ↔ alloc h b.
Proof.
  unfold alloc, upd. destruct (decide (a = b)) as [->|Hne].
  - rewrite lookup_alter_eq. by rewrite fmap_is_Some.
  - by rewrite lookup_alter_ne.
Qed.

Lemma rd_upd h a f v b g :
  rd (upd h a f v) b g =
  if decide (b = a ∧ g = f) then (λ _, v) <$> rd h a f else rd h b g.
Proof.
  unfold rd, upd. destruct (decide (a = b)) as [->|Hne].
  - rewrite lookup_alter_eq. destruct (h !! b) as [n|]; simpl.
    + case_decide as Hd.
      * destruct Hd as [_ ->]. by destruct f.
      * destruct f, g; naive_solver.
    + by case_decide.
  - rewrite lookup_alter_ne by done. case_decide; naive_solver.
Qed.

Lemma rd_upd_eq h a f v : alloc h a → rd (upd h a f v) a f = Some v.
Proof.
  intros Ha. rewrite rd_upd, decide_True by done.
  by destruct (alloc_rd h a f Ha) as [w ->].
Qed.

Lemma rd_upd_ne h a f v b g : (b, g) ≠ (a, f) → rd (upd h a f v) b g = rd h b g.
Proof. intros Hne. rewrite rd_upd, decide_False; naive_solver. Qed.

Lemma load_rd h a f v : rd h a f = Some v → load h a f = Done v.
Proof. unfold rd, load. destruct (h !! a); naive_solver. Qed.

Lemma load_Done_inv h a f v : load h a f = Done v → rd h a f = Some v.
Proof. unfold rd, load. destruct (h !! a); naive_solver. Qed.

Lemma store_alloc h a f v : alloc h a → store h a f v = Done (upd h a f v).
Proof.
  unfold alloc, store, upd. intros [n Hn]. rewrite Hn. f_equal.
  apply map_eq. intros b. destruct (decide (a = b)) as [->|Hne].
  - by rewrite lookup_insert_eq, lookup_alter_eq, Hn.
  - by rewrite lookup_insert_ne, lookup_alter_ne.
Qed.

Lemma store_Done_inv h a f v h' :
  store h a f v = Done h' → alloc h a ∧ h' = upd h a f v.
Proof.
  intros Hs. assert (alloc h a) as Ha.
  { unfold store, alloc in *. destruct (h !! a); naive_solver. }
  split; [done|]. rewrite store_alloc in Hs by done. congruence.
Qed.

(** Two stores are equal when they agree on every member of every object. *)
Lemma heap_ext (h1 h2 : heap) : (∀ a f, rd h1 a f = rd h2 a f) → h1 = h2.
Proof.
  intros Heq. apply map_eq. intros a.
  pose proof (Heq a Prev) as Hp. pose proof (Heq a Next) as Hn.
  unfold rd in *.
  destruct (h1 !! a) as [[p1 n1]|], (h2 !! a) as [[p2 n2]|]; naive_solver.
Qed.

Lemma unlinked_rd h a :
  unlinked h a ↔ rd h a Prev = Some nullptr ∧ rd h a Next = Some nullptr.
Proof.
  unfold unlinked, rd. destruct (h !! a) as [[p n]|]; simpl; naive_solver.
Qed.

Lemma links_alloc_l h a b : links h a b → alloc h a.
Proof. intros [H _]. by eapply rd_alloc. Qed.

Lemma links_alloc_r h a b : links h a b → alloc h b.
Proof. intros [_ H]. by eapply rd_alloc. Qed.

Lemma links_inj_l h a a' b : links h a b → links h a' b → a = a'.
Proof. unfold links. naive_solver. Qed.

Lemma links_inj_r h a b b' : links h a b → links h a b' → b = b'.
Proof. unfold links. naive_solver. Qed.

(** ** Symbolic execution of the member functions *)

Ltac alloc_tac :=
  repeat (apply alloc_upd);
  first [ eassumption
        | eapply links_alloc_l; eassumption
        | eapply links_alloc_r; eassumption
        | eapply rd_alloc; eassumption ].

Ltac rd_simpl :=
  repeat first [ rewrite rd_upd_eq by alloc_tac | rewrite rd_upd_ne by congruence ].

Ltac rd_tac := rd_simpl; first [ eassumption | reflexivity ].

Ltac step :=
  first [ erewrite load_rd by rd_tac
        | rewrite store_alloc by alloc_tac
        | rewrite bind_Done ]; simpl.

Lemma unlink_spec h p a n :
  links h p a → links h a n → p ≠ a →
  Base.unlink h a = Done (unlink_heap h p a n).
Proof.
  intros [Hpn Hap] [Han Hna] Hne.
  assert (n ≠ a) as Hne' by congruence.
  unfold Base.unlink.
  do 2 step. rewrite !bool_decide_true by congruence. simpl.
  repeat step. done.
Qed.

Lemma insert_spec h p this obj :
  rd h this Prev = Some (Some p) → alloc h p → alloc h obj →
  Base.insert h this obj = Done (insert_heap h p this obj).
Proof.
  intros Hp Hap Hobj. unfold Base.insert.
  step.
  assert (rd (upd h obj Next (Some this)) this Prev = Some (Some p)) as H1.
  { by rewrite rd_upd_ne by congruence. }
  do 2 step.
  assert (rd (upd (upd h obj Next (Some this)) obj Prev (Some p)) this Prev
          = Some (Some p)) as H2.
  { rewrite rd_upd. case_decide as Hd; [|done]. destruct Hd as [-> _].
    rewrite rd_upd_ne by congruence.
    by destruct (alloc_rd h obj Prev Hobj) as [w ->]. }
  repeat step. done.
Qed.

Lemma triswap_spec h a b c va vb vc :
  a ≠ b → b ≠ c → a ≠ c →
  rd h a.1 a.2 = Some va → rd h b.1 b.2 = Some vb → rd h c.1 c.2 = Some vc →
  Base.triswap h a b c = Done (rot3 h a b c va vb vc).
Proof.
  destruct a as [a fa], b as [b fb], c as [c fc]; simpl.
  intros Hab Hbc Hac Ha Hb Hc. unfold Base.triswap. simpl.
  repeat step. done.
Qed.

Lemma splice_spec h P F L this first last :
  links h P this → links h F first → links h L last →
  first ≠ last → this ≠ first → this ≠ last →
  Base.splice h this first last = Done (splice_heap h P F L this first last).
Proof.
  intros [HPn HtP] [HFn HfP] [HLn HlP] Hfl Htf Htl.
  assert (P ≠ F ∧ F ≠ L ∧ P ≠ L) as (HPF & HFL & HPL) by (split_and!; congruence).
  unfold Base.splice. rewrite bool_decide_false by done.
  repeat step.
  rewrite (triswap_spec _ _ _ _ (Some this) (Some first) (Some last));
    simpl; [| congruence | congruence | congruence | done | done | done].
  unfold rot3 at 1. simpl.
  rewrite (triswap_spec _ _ _ _ (Some P) (Some L) (Some F)); simpl.
  - done.
  - congruence.
  - congruence.
  - congruence.
  - by rd_simpl.
  - by rd_simpl.
  - by rd_simpl.
Qed.

(** ** Reading through the result stores *)

Lemma fmap_const_rd h a f (v : ptr) : alloc h a → (λ _, v) <$> rd h a f = Some v.
Proof. intros Ha. by destruct (alloc_rd h a f Ha) as [w ->]. Qed.

Ltac rd_cases :=
  rewrite ?rd_upd;
  repeat (case_decide; destruct_and?; simplify_eq);
  rewrite ?fmap_const_rd by alloc_tac;
  try done; try (exfalso; naive_solver).

Lemma unlink_heap_rd h p a n b g :
  alloc h p → alloc h n → alloc h a → p ≠ a → n ≠ a →
  rd (unlink_heap h p a n) b g =
    if decide (b = a) then Some nullptr
    else if decide (b = p ∧ g = Next) then Some (Some n)
    else if decide (b = n ∧ g = Prev) then Some (Some p)
    else rd h b g.
Proof.
  intros Hp Hn Ha Hpa Hna. unfold unlink_heap. destruct g; rd_cases.
Qed.

Lemma insert_heap_rd h p this obj b g :
  alloc h p → alloc h this → alloc h obj → obj ≠ this → obj ≠ p →
  rd (insert_heap h p this obj) b g =
    if decide (b = obj) then Some (Some (match g with Prev => p | Next => this end))
    else if decide (b = p ∧ g = Next) then Some (Some obj)
    else if decide (b = this ∧ g = Prev) then Some (Some obj)
    else rd h b g.
Proof.
  intros Hp Ht Ho Hot Hop. unfold insert_heap. destruct g; rd_cases.
Qed.

Lemma splice_heap_rd h P F L this first last b g :
  alloc h P → alloc h F → alloc h L → alloc h this → alloc h first → alloc h last →
  P ≠ F → F ≠ L → P ≠ L → this ≠ first → first ≠ last → this ≠ last →
  rd (splice_heap h P F L this first last) b g =
    match g with
    | Next =>
        if decide (b = P) then Some (Some first)
        else if decide (b = F) then Some (Some last)
        else if decide (b = L) then Some (Some this)
        else rd h b Next
    | Prev =>
        if decide (b = this) then Some (Some L)
        else if decide (b = last) then Some (Some F)
        else if decide (b = first) then Some (Some P)
        else rd h b Prev
    end.
Proof.
  intros. unfold splice_heap. destruct g; rd_cases.
Qed.

Lemma reset_heap_rd h a b g :
  alloc h a →
  rd (reset_heap h a) b g = if decide (b = a) then Some nullptr else rd h b g.
Proof. intros. unfold reset_heap. destruct g; rd_cases. Qed.

(** ** Paths and rings *)

Lemma end_of_app a l1 l2 : end_of a (l1 ++ l2) = end_of (end_of a l1) l2.
Proof. revert a. induction l1 as [|b t IH]; intros a; simpl; [done|]. apply IH. Qed.

Lemma end_of_snoc a l b : end_of a (l ++ [b]) = b.
Proof. by rewrite end_of_app. Qed.

Lemma front_of_snoc a l b : front_of a (l ++ [b]) = a :: l.
Proof. revert a. induction l as [|c t IH]; intros a; simpl; [done|]. by rewrite IH. Qed.

Lemma front_end a l : a :: l = front_of a l ++ [end_of a l].
Proof. revert a. induction l as [|b t IH]; intros a; simpl; [done|]. by rewrite <- IH. Qed.

Lemma end_of_elem a l : end_of a l ∈ a :: l.
Proof. rewrite (front_end a l). set_solver. Qed.

Lemma front_of_elem a l x : x ∈ front_of a l → x ∈ a :: l.
Proof. rewrite (front_end a l). set_solver. Qed.

Lemma end_of_not_front a l : NoDup (a :: l) → end_of a l ∉ front_of a l.
Proof.
  rewrite (front_end a l) at 1. rewrite NoDup_app. intros (_ & H & _) Hin.
  apply (H _ Hin). set_solver.
Qed.

Lemma path_app h a l1 l2 :
  path h a (l1 ++ l2) ↔ path h a l1 ∧ path h (end_of a l1) l2.
Proof.
  revert a. induction l1 as [|b t IH]; intros a; simpl; [naive_solver|].
  rewrite IH. naive_solver.
Qed.

Lemma path_mid h a l1 b l2 :
  path h a (l1 ++ b :: l2) ↔ path h a (l1 ++ [b]) ∧ path h b l2.
Proof.
  rewrite (path_app h a l1 (b :: l2)), (path_app h a l1 [b]). simpl. naive_solver.
Qed.

Lemma path_snoc h a l b :
  path h a (l ++ [b]) ↔ path h a l ∧ links h (end_of a l) b.
Proof. rewrite path_app. simpl. naive_solver. Qed.

Lemma path_frame h h' a l :
  (∀ x, x ∈ front_of a l → rd h' x Next = rd h x Next) →
  (∀ y, y ∈ l → rd h' y Prev = rd h y Prev) →
  path h a l → path h' a l.
Proof.
  revert a. induction l as [|b t IH]; intros a Hn Hp; simpl; [done|].
  intros [[H1 H2] Ht]. split.
  - split.
    + rewrite Hn; [done|]. simpl. set_solver.
    + rewrite Hp; [done|]. set_solver.
  - apply IH; [| |done].
    + intros x Hx. apply Hn. simpl. set_solver.
    + intros y Hy. apply Hp. set_solver.
Qed.

Lemma path_alloc h a l x : path h a l → l ≠ [] → x ∈ a :: l → alloc h x.
Proof.
  revert a. induction l as [|b t IH]; intros a; simpl; [done|].
  intros [Hl Ht] _ Hx. apply elem_of_cons in Hx as [->|Hx].
  - by eapply links_alloc_l.
  - destruct t as [|c t'].
    + apply list_elem_of_singleton in Hx as ->. by eapply links_alloc_r.
    + by apply (IH b).
Qed.

Lemma ring_rotate h l1 l2 :
  l1 ≠ [] → l2 ≠ [] → ring h (l1 ++ l2) → ring h (l2 ++ l1).
Proof.
  destruct l1 as [|a t1]; [done|]. destruct l2 as [|b t2]; [done|].
  intros _ _. simpl. unfold is_list. intros [Hp Hnd]. split.
  - rewrite <- app_assoc in Hp. simpl in Hp. apply path_mid in Hp as [H1 H2].
    rewrite <- app_assoc. simpl. apply path_mid. done.
  - revert Hnd. apply NoDup_Permutation_proper.
    change (b :: t2 ++ a :: t1) with ((b :: t2) ++ (a :: t1)).
    change (a :: t1 ++ b :: t2) with ((a :: t1) ++ (b :: t2)).
    apply Permutation_app_comm.
Qed.

Lemma is_list_rotate h fake xs x ys :
  is_list h fake (xs ++ x :: ys) ↔ ring h (x :: ys ++ fake :: xs).
Proof.
  split; intros H.
  - apply (ring_rotate h (fake :: xs) (x :: ys)); done.
  - apply (ring_rotate h (x :: ys) (fake :: xs)); done.
Qed.

Lemma ring_alloc h l x : ring h l → x ∈ l → alloc h x.
Proof.
  destruct l as [|a t]; [done|]. intros [Hp _] Hx.
  eapply (path_alloc h a (t ++ [a])); [done| |set_solver].
  by destruct t.
Qed.

Lemma path_same h h' a l :
  (∀ x f, x ∈ a :: l → rd h' x f = rd h x f) → path h a l → path h' a l.
Proof.
  intros H. apply path_frame.
  - intros x Hx. apply H. by apply front_of_elem.
  - intros y Hy. apply H. set_solver.
Qed.

Lemma ring_same h h' l :
  (∀ x f, x ∈ l → rd h' x f = rd h x f) → ring h l → ring h' l.
Proof.
  destruct l as [|a t]; [done|]. intros H [Hp Hnd]. split; [|done].
  revert Hp. apply path_same. intros x f Hx. apply H. set_solver.
Qed.

Lemma unlink_ring h x n t :
  ring h (x :: n :: t) →
  Base.unlink h x = Done (unlink_heap h (end_of n t) x n) ∧
  ring (unlink_heap h (end_of n t) x n) (n :: t) ∧
  unlinked (unlink_heap h (end_of n t) x n) x.
Proof.
  intros Hr. pose proof Hr as [Hp Hnd]. set (p := end_of n t).
  change ((n :: t) ++ [x]) with (n :: (t ++ [x])) in Hp. destruct Hp as [Hxn Hp].
  apply path_snoc in Hp as [Hp Hpx]. fold p in Hpx.
  apply NoDup_cons in Hnd as [Hx Hnd].
  assert (p ∈ n :: t) as Hpin by apply end_of_elem.
  assert (p ≠ x) as Hpx' by (intros ->; done).
  assert (n ≠ x) as Hnx' by set_solver.
  assert (∀ b g, rd (unlink_heap h p x n) b g =
    if decide (b = x) then Some nullptr
    else if decide (b = p ∧ g = Next) then Some (Some n)
    else if decide (b = n ∧ g = Prev) then Some (Some p)
    else rd h b g) as Hrd.
  { intros b g. apply unlink_heap_rd; [alloc_tac..|done|done]. }
  split; [by apply unlink_spec|]. split.
  - split; [|done]. apply path_snoc. split.
    + revert Hp. apply path_frame.
      * intros y Hy. rewrite Hrd.
        assert (y ≠ p) by (intros ->; by apply (end_of_not_front n t)).
        assert (y ≠ x) by (intros ->; apply Hx; by apply front_of_elem).
        rewrite decide_False by done. rewrite decide_False by naive_solver.
        by rewrite decide_False by naive_solver.
      * intros y Hy. rewrite Hrd.
        assert (y ≠ x) by (intros ->; set_solver).
        assert (y ≠ n) by (intros ->; by apply NoDup_cons in Hnd as [? _]).
        rewrite decide_False by done. rewrite decide_False by naive_solver.
        by rewrite decide_False by naive_solver.
    + fold p. split; rewrite Hrd.
      * rewrite decide_False by done. by rewrite decide_True.
      * rewrite decide_False by done. rewrite decide_False by naive_solver.
        by rewrite decide_True.
  - apply unlinked_rd. rewrite !Hrd. by rewrite !decide_True.
Qed.

Lemma insert_ring h this rest obj :
  ring h (this :: rest) → alloc h obj → obj ∉ this :: rest →
  Base.insert h this obj = Done (insert_heap h (end_of this rest) this obj) ∧
  ring (insert_heap h (end_of this rest) this obj) (this :: rest ++ [obj]).
Proof.
  intros Hr Ho Hnin. pose proof Hr as [Hp Hnd]. set (p := end_of this rest).
  apply path_snoc in Hp as [Hp Hpt]. fold p in Hpt.
  assert (p ∈ this :: rest) as Hpin by apply end_of_elem.
  assert (obj ≠ p) as Hop by (intros ->; done).
  assert (obj ≠ this) as Hot by set_solver.
  assert (∀ b g, rd (insert_heap h p this obj) b g =
    if decide (b = obj) then Some (Some (match g with Prev => p | Next => this end))
    else if decide (b = p ∧ g = Next) then Some (Some obj)
    else if decide (b = this ∧ g = Prev) then Some (Some obj)
    else rd h b g) as Hrd.
  { intros b g. apply insert_heap_rd; [alloc_tac..|done|done]. }
  split; [apply insert_spec; [apply Hpt|alloc_tac|done]|]. split.
  - rewrite <- app_assoc. apply path_app. split.
    + revert Hp. apply path_frame.
      * intros y Hy. rewrite Hrd.
        assert (y ≠ p) by (intros ->; by apply (end_of_not_front this rest)).
        assert (y ≠ obj) by (intros ->; apply Hnin; by apply front_of_elem).
        rewrite decide_False by done. rewrite decide_False by naive_solver.
        by rewrite decide_False by naive_solver.
      * intros y Hy. rewrite Hrd.
        assert (y ≠ obj) by (intros ->; set_solver).
        assert (y ≠ this) by (intros ->; by apply NoDup_cons in Hnd as [? _]).
        rewrite decide_False by done. rewrite decide_False by naive_solver.
        by rewrite decide_False by naive_solver.
    + fold p. simpl. unfold links. split_and!; try done; rewrite Hrd.
      * rewrite decide_False by done. by rewrite decide_True.
      * by rewrite decide_True.
      * by rewrite decide_True.
      * rewrite decide_False by done. rewrite decide_False by naive_solver.
        by rewrite decide_True.
  - change (NoDup ((this :: rest) ++ [obj])). apply NoDup_app. split_and!; [done| |apply NoDup_singleton].
    intros y Hy ->%list_elem_of_singleton. done.
Qed.

Lemma path_head h a l q : path h a (l ++ [q]) → links h a (hd q l).
Proof. destruct l; simpl; naive_solver. Qed.

Lemma foldl_reset_alloc h xs b : alloc (foldl reset_heap h xs) b ↔ alloc h b.
Proof.
  revert h. induction xs as [|x t IH]; intros h; simpl; [done|].
  rewrite IH. unfold reset_heap. by rewrite !alloc_upd.
Qed.

Lemma foldl_reset_rd h xs b g :
  (∀ x, x ∈ xs → alloc h x) →
  rd (foldl reset_heap h xs) b g =
    if decide (b ∈ xs) then Some nullptr else rd h b g.
Proof.
  revert h. induction xs as [|x t IH]; intros h Hall; cbn [foldl].
  - rewrite decide_False; [done|]. apply not_elem_of_nil.
  - rewrite IH.
    + rewrite reset_heap_rd by (apply Hall; set_solver).
      repeat case_decide; try done; set_solver.
    + intros y Hy. unfold reset_heap. rewrite !alloc_upd. apply Hall. set_solver.
Qed.

Lemma clear_loop_spec fuel this xs : ∀ h,
  match xs with [] => True | x :: t => path h x (t ++ [this]) end →
  NoDup (this :: xs) → length xs ≤ fuel →
  Base.clear_loop fuel h (Some (hd this xs)) this = Done (foldl reset_heap h xs).
Proof.
  revert fuel. induction xs as [|x t IH]; intros fuel h Hp Hnd Hfuel.
  - destruct fuel; simpl; by rewrite bool_decide_false by naive_solver.
  - destruct fuel as [|fuel]; [simpl in Hfuel; lia|].
    apply NoDup_cons in Hnd as [Hthis Hnd].
    apply NoDup_cons in Hnd as [Hx Hnd].
    assert (x ≠ this) by set_solver.
    pose proof (path_head _ _ _ _ Hp) as [Hxn _].
    simpl. rewrite bool_decide_true by congruence. simpl.
    repeat step. fold (reset_heap h x).
    apply IH.
    + destruct t as [|y t']; [done|]. simpl in Hp. destruct Hp as [_ Hp].
      revert Hp. apply path_same. intros z f Hz.
      rewrite reset_heap_rd by alloc_tac. rewrite decide_False; [done|].
      intros ->. set_solver.
    + apply NoDup_cons. split; [set_solver|done].
    + simpl in Hfuel. lia.
Qed.

Lemma clear_spec fuel h this xs :
  is_list h this xs → length xs ≤ fuel →
  Base.clear fuel h this = Done (clear_heap h this xs).
Proof.
  intros [Hp Hnd] Hfuel. unfold Base.clear.
  pose proof (path_head _ _ _ _ Hp) as [Hn _].
  step. rewrite (clear_loop_spec fuel this xs); [|  |done|done].
  - simpl. assert (alloc (foldl reset_heap h xs) this) by (apply foldl_reset_alloc; alloc_tac).
    repeat step. done.
  - destruct xs as [|x t]; [done|]. simpl in Hp. apply Hp.
Qed.

Lemma clear_heap_rd h this xs b g :
  is_list h this xs →
  rd (clear_heap h this xs) b g =
    if decide (b = this) then Some (Some this)
    else if decide (b ∈ xs) then Some nullptr
    else rd h b g.
Proof.
  intros Hl. pose proof Hl as [Hp Hnd]. unfold clear_heap.
  assert (∀ x, x ∈ xs → alloc h x) as Hall.
  { intros x Hx. apply (ring_alloc h (this :: xs)); [done|set_solver]. }
  assert (alloc (foldl reset_heap h xs) this).
  { apply foldl_reset_alloc. apply (ring_alloc h (this :: xs)); [done|set_solver]. }
  destruct g; rewrite !rd_upd; repeat (case_decide; destruct_and?; simplify_eq);
    rewrite ?fmap_const_rd by alloc_tac; try done; try naive_solver;
    rewrite foldl_reset_rd by done; case_decide; done.
Qed.

Lemma clear_is_list h this xs :
  is_list h this xs →
  is_list (clear_heap h this xs) this [] ∧
  (∀ x, x ∈ xs → unlinked (clear_heap h this xs) x).
Proof.
  intros Hl. pose proof Hl as [Hp Hnd]. apply NoDup_cons in Hnd as [Hthis Hnd]. split.
  - split; [|apply NoDup_singleton]. simpl. unfold links.
    rewrite !(clear_heap_rd h this xs) by done. by rewrite !decide_True.
  - intros x Hx. apply unlinked_rd.
    rewrite !(clear_heap_rd h this xs) by done.
    repeat case_decide; simplify_eq; done.
Qed.

Lemma path_next h a l x :
  path h a l → x ∈ front_of a l → ∃ y, y ∈ l ∧ links h x y.
Proof.
  revert a. induction l as [|b t IH]; intros a; simpl; [by intros _ ?%elem_of_nil|].
  intros [Hl Ht] [->|Hx]%elem_of_cons.
  - exists b. split; [set_solver|done].
  - destruct (IH b Ht Hx) as (y & Hy & Hxy). exists y. split; [set_solver|done].
Qed.

Lemma splice_path h P pos F first rs last :
  links h P pos → links h F first → path h first rs →
  links h (end_of first rs) last →
  NoDup (first :: rs) → pos ∉ first :: rs → last ∉ first :: rs → pos ≠ last →
  Base.splice h pos first last
    = Done (splice_heap h P F (end_of first rs) pos first last) ∧
  path (splice_heap h P F (end_of first rs) pos first last) P (first :: rs ++ [pos]) ∧
  links (splice_heap h P F (end_of first rs) pos first last) F last ∧
  (∀ b g, (g = Next → b ∉ [P; F; end_of first rs]) →
          (g = Prev → b ∉ [pos; last; first]) →
          rd (splice_heap h P F (end_of first rs) pos first last) b g = rd h b g).
Proof.
  set (L := end_of first rs).
  intros HP HF Hrs HL Hnd Hpos Hlast Hpl.
  assert (L ∈ first :: rs) as HLin by apply end_of_elem.
  assert (pos ≠ first) as Hpf by set_solver.
  assert (first ≠ last) as Hfl by set_solver.
  assert (P ∉ first :: rs) as HPnin.
  { rewrite (front_end first rs). fold L. intros [Hin|Hin]%elem_of_app.
    - destruct (path_next _ _ _ _ Hrs Hin) as (y & Hy & Hxy).
      rewrite (links_inj_r _ _ _ _ HP Hxy) in Hpos. set_solver.
    - apply list_elem_of_singleton in Hin as ->.
      by rewrite (links_inj_r _ _ _ _ HP HL) in Hpl. }
  assert (F ∉ first :: rs) as HFnin.
  { rewrite (front_end first rs). fold L. intros [Hin|Hin]%elem_of_app.
    - destruct (path_next _ _ _ _ Hrs Hin) as (y & Hy & Hxy).
      rewrite <- (links_inj_r _ _ _ _ HF Hxy) in Hy.
      by apply NoDup_cons in Hnd as [? _].
    - apply list_elem_of_singleton in Hin as ->.
      rewrite (links_inj_r _ _ _ _ HF HL) in Hlast. set_solver. }
  assert (P ≠ F) as HPF by (intros ->; by rewrite (links_inj_r _ _ _ _ HP HF) in Hpf).
  assert (F ≠ L) as HFL by (intros ->; done).
  assert (P ≠ L) as HPL by (intros ->; done).
  assert (∀ b g, rd (splice_heap h P F L pos first last) b g =
    match g with
    | Next =>
        if decide (b = P) then Some (Some first)
        else if decide (b = F) then Some (Some last)
        else if decide (b = L) then Some (Some pos)
        else rd h b Next
    | Prev =>
        if decide (b = pos) then Some (Some L)
        else if decide (b = last) then Some (Some F)
        else if decide (b = first) then Some (Some P)
        else rd h b Prev
    end) as Hrd.
  { intros b g. apply splice_heap_rd; first [alloc_tac | done]. }
  split; [by apply splice_spec|]. split; [|split].
  - change (first :: rs ++ [pos]) with ([first] ++ rs ++ [pos]).
    rewrite app_assoc. apply path_snoc. rewrite path_app. simpl. fold L.
    unfold links. rewrite !Hrd.
    split_and!; try done.
    + by rewrite decide_True.
    + repeat case_decide; simplify_eq; done.
    + revert Hrs. apply path_frame.
      * intros y Hy. rewrite Hrd.
        assert (y ≠ L) by (intros ->; by apply (end_of_not_front first rs)).
        apply front_of_elem in Hy.
        repeat case_decide; simplify_eq; done.
      * intros y Hy. rewrite Hrd.
        assert (y ≠ first) by (intros ->; by apply NoDup_cons in Hnd as [? _]).
        repeat case_decide; simplify_eq; set_solver.
    + repeat case_decide; simplify_eq; done.
    + by rewrite decide_True.
  - unfold links. rewrite !Hrd. split; repeat case_decide; simplify_eq; done.
  - intros b [] Hn Hp; rewrite Hrd; repeat case_decide; simplify_eq; try done;
      set_solver.
Qed.

Lemma walk_fwd_path fuel h stop l : ∀ a,
  path h a (l ++ [stop]) → stop ∉ l → length l ≤ fuel →
  walk_fwd fuel h (mk_iter (Some (hd stop l))) (mk_iter (Some stop)) = Done l.
Proof.
  revert fuel. induction l as [|x t IH]; intros fuel a Hp Hstop Hfuel.
  - destruct fuel; simpl; unfold Iter.neq; simpl; by rewrite bool_decide_false by naive_solver.
  - destruct fuel as [|fuel]; [simpl in Hfuel; lia|].
    simpl in Hp. destruct Hp as [_ Hp].
    pose proof (path_head _ _ _ _ Hp) as [Hxn _].
    simpl. unfold Iter.neq. simpl. rewrite bool_decide_true by set_solver.
    unfold Iter.incr. simpl. step.
    rewrite (IH fuel x); [done|done|set_solver|simpl in Hfuel; lia].
Qed.

Lemma walk_bwd_path fuel h a l :
  path h a l → a ∉ l → length l ≤ fuel →
  walk_bwd fuel h (mk_iter (Some (end_of a l))) (mk_iter (Some a)) = Done (reverse l).
Proof.
  revert fuel. induction l as [|x t IH] using rev_ind; intros fuel Hp Ha Hfuel.
  - destruct fuel; simpl; unfold Iter.neq; simpl; by rewrite bool_decide_false by naive_solver.
  - destruct fuel as [|fuel]; [rewrite length_app in Hfuel; simpl in Hfuel; lia|].
    apply path_snoc in Hp as [Hp [_ Hprev]].
    rewrite end_of_snoc, reverse_snoc.
    simpl. unfold Iter.neq. simpl. rewrite bool_decide_true by set_solver.
    unfold Iter.decr. simpl. step.
    rewrite IH; [done|done|set_solver|rewrite length_app in Hfuel; simpl in Hfuel; lia].
Qed.

Lemma is_list_contents fuel h fake xs :
  is_list h fake xs → length xs ≤ fuel →
  contents fuel h fake = Done xs ∧ contents_rev fuel h fake = Done (reverse xs).
Proof.
  intros [Hp Hnd] Hfuel. apply NoDup_cons in Hnd as [Hfake Hnd]. split.
  - unfold contents, IList.begin, IList.end_.
    pose proof (path_head _ _ _ _ Hp) as [Hn _]. step.
    by apply (walk_fwd_path fuel h fake xs fake).
  - unfold contents_rev, Iter.decr, IList.end_. simpl.
    apply path_snoc in Hp as [Hp [_ Hprev]]. step.
    by apply walk_bwd_path.
Qed.

(** ** The list operations on a well-formed list *)

Lemma hd_app_cons (q : addr) (l1 : list addr) x l2 : hd q (l1 ++ x :: l2) = hd x l1.
Proof. by destruct l1. Qed.

Lemma unlink_is_list h fake xs x ys :
  is_list h fake (xs ++ x :: ys) →
  links h (end_of fake xs) x ∧ links h x (hd fake ys) ∧
  end_of fake xs ≠ x ∧ hd fake ys ≠ x ∧
  Base.unlink h x = Done (unlink_heap h (end_of fake xs) x (hd fake ys)) ∧
  is_list (unlink_heap h (end_of fake xs) x (hd fake ys)) fake (xs ++ ys) ∧
  unlinked (unlink_heap h (end_of fake xs) x (hd fake ys)) x.
Proof.
  intros Hl. pose proof Hl as [Hp Hnd].
  rewrite <- app_assoc in Hp. apply path_app in Hp as [_ Hp]. simpl in Hp.
  destruct Hp as [Hpx Hp]. rewrite app_comm_cons in Hnd.
  apply NoDup_app in Hnd as (_ & Hdisj & Hnd').
  assert (end_of fake xs ≠ x) as Hne1.
  { intros Heq. apply (Hdisj (end_of fake xs)); [apply end_of_elem|]. rewrite Heq. set_solver. }
  apply is_list_rotate in Hl.
  assert (ys ++ fake :: xs = hd fake ys :: tail (ys ++ fake :: xs)) as Heq by (by destruct ys).
  assert (end_of (hd fake ys) (tail (ys ++ fake :: xs)) = end_of fake xs) as Hend.
  { destruct ys as [|y ys']; simpl; [done|]. by rewrite end_of_app. }
  rewrite Heq in Hl. destruct (unlink_ring _ _ _ _ Hl) as (Hu & Hr & Hx).
  rewrite Hend in Hu, Hr, Hx. rewrite <- Heq in Hr.
  assert (hd fake ys ≠ x) as Hne2.
  { destruct Hl as [_ Hnd2]. apply NoDup_cons in Hnd2 as [Hnx _]. set_solver. }
  split_and!; try done.
  - apply (path_head h x ys fake Hp).
  - destruct ys as [|y ys'].
    + by rewrite app_nil_r.
    + apply (ring_rotate _ (y :: ys') (fake :: xs)); done.
Qed.

Lemma insert_is_list h fake xs ys obj :
  is_list h fake (xs ++ ys) → alloc h obj → obj ∉ fake :: xs ++ ys →
  Base.insert h (hd fake ys) obj
    = Done (insert_heap h (end_of fake xs) (hd fake ys) obj) ∧
  is_list (insert_heap h (end_of fake xs) (hd fake ys) obj) fake (xs ++ obj :: ys).
Proof.
  intros Hl Ho Hnin. destruct ys as [|y ys']; simpl.
  - rewrite app_nil_r in Hl, Hnin.
    destruct (insert_ring h fake xs obj Hl Ho Hnin) as [H1 H2]. done.
  - apply is_list_rotate in Hl.
    assert (obj ∉ y :: ys' ++ fake :: xs) as Hnin' by set_solver.
    destruct (insert_ring h y (ys' ++ fake :: xs) obj Hl Ho Hnin') as [H1 H2].
    rewrite end_of_app in H1, H2. simpl in H1, H2. split; [done|].
    rewrite <- app_assoc in H2. simpl in H2.
    apply (ring_rotate _ (y :: ys') (fake :: xs ++ [obj])) in H2; [|done..].
    simpl in H2. rewrite <- app_assoc in H2. simpl in H2.
    apply (is_list_rotate _ fake xs obj (y :: ys')).
    apply (ring_rotate _ (fake :: xs) (obj :: y :: ys')); [done..|].
    simpl. unfold is_list in *. done.
Qed.

Lemma is_list_front h fake x xs : is_list h fake (x :: xs) → IList.front h fake = Done x.
Proof. intros [[[Hn _] _] _]. unfold IList.front. by repeat step. Qed.

Lemma is_list_back h fake xs x : is_list h fake (xs ++ [x]) → IList.back h fake = Done x.
Proof.
  intros [Hp _]. apply path_snoc in Hp as [_ [_ Hp]]. rewrite end_of_snoc in Hp.
  unfold IList.back. by repeat step.
Qed.

Lemma is_list_empty h fake xs :
  is_list h fake xs → IList.empty h fake = Done (bool_decide (xs = [])).
Proof.
  intros [Hp Hnd]. apply path_snoc in Hp as [_ [_ Hp]].
  unfold IList.empty. step. f_equal. apply bool_decide_ext.
  destruct xs as [|x t] using rev_ind.
  - done.
  - rewrite end_of_snoc. split.
    + intros [= ->]. apply NoDup_cons in Hnd as [Hnd _]. set_solver.
    + intros []%app_nil. done.
Qed.

Lemma is_list_begin h fake xs :
  is_list h fake xs → IList.begin h fake = Done (mk_iter (Some (hd fake xs))).
Proof.
  intros [Hp _]. apply path_head in Hp as [Hn _]. unfold IList.begin. by step.
Qed.

(** ** Unlinking: the unlinked state and the assertions *)

Lemma try_unlink_unlinked h a : unlinked h a → Base.try_unlink h a = Done h.
Proof.
  intros [Hp Hn]%unlinked_rd. unfold Base.try_unlink. repeat step.
  done.
Qed.

Ltac inv_bind H :=
  repeat match type of H with
  | (_ ≫= _) = Done _ =>
      let x := fresh "x" in let Hx := fresh "Hx" in
      apply bind_Done_inv in H as (x & Hx & H)
  end.

Lemma unlink_Done_unlinked h a h' : Base.unlink h a = Done h' → unlinked h' a.
Proof.
  unfold Base.unlink. intros H. inv_bind H.
  apply store_Done_inv in H as [Ha ->].
  match goal with Hs : store _ a Prev nullptr = Done _ |- _ =>
    apply store_Done_inv in Hs as [Ha' ->] end.
  apply unlinked_rd. split; by rd_simpl.
Qed.

Lemma ctor_unlinked h a : unlinked (Element.ctor h a) a.
Proof. unfold unlinked, Element.ctor. by rewrite lookup_insert_eq. Qed.

Lemma bind_AssertFailed_inv {A B} (m : outcome A) (k : A → outcome B) :
  (m ≫= k) = AssertFailed → m = AssertFailed ∨ ∃ a, m = Done a ∧ k a = AssertFailed.
Proof. destruct m; try discriminate; eauto. Qed.

Lemma load_not_assert h a f : load h a f ≠ AssertFailed.
Proof. unfold load. by destruct (h !! a). Qed.

Lemma store_not_assert h a f v : store h a f v ≠ AssertFailed.
Proof. unfold store. by destruct (h !! a). Qed.

Lemma deref_not_assert p : deref p ≠ AssertFailed.
Proof. by destruct p. Qed.

Ltac inv_assert H :=
  repeat match type of H with
  | (_ ≫= _) = AssertFailed =>
      let x := fresh "x" in let Hx := fresh "Hx" in
      apply bind_AssertFailed_inv in H as [H|(x & Hx & H)];
      [ first [ done
              | by apply load_not_assert in H
              | by apply store_not_assert in H
              | by apply deref_not_assert in H ] | cbv beta in H ]
  end;
  first [ done
        | by apply load_not_assert in H
        | by apply store_not_assert in H
        | by apply deref_not_assert in H ].

Lemma unlink_assert_iff h this nd :
  h !! this = Some nd →
  Base.unlink h this = AssertFailed ↔
  (prev nd = nullptr ∨ next nd = nullptr ∨ prev nd = Some this ∨ next nd = Some this).
Proof.
  intros Hnd.
  assert (rd h this Prev = Some (prev nd)) as Hp by (unfold rd; by rewrite Hnd).
  assert (rd h this Next = Some (next nd)) as Hn by (unfold rd; by rewrite Hnd).
  unfold Base.unlink.
  rewrite !(load_rd _ _ _ _ Hp), !(load_rd _ _ _ _ Hn), !bind_Done.
  unfold assert.
  repeat (case_bool_decide; [rewrite bind_Done|]); try naive_solver.
  split; [|naive_solver]. intros Hfail. exfalso. inv_assert Hfail.
Qed.

(** ** Destroying, erasing, clearing *)

Lemma rd_delete h a b g : b ≠ a → rd (delete a h) b g = rd h b g.
Proof. intros Hne. unfold rd. by rewrite lookup_delete_ne. Qed.

Lemma rd_insert_ne h a nd b g : b ≠ a → rd (<[a := nd]> h) b g = rd h b g.
Proof. intros Hne. unfold rd. by rewrite lookup_insert_ne. Qed.

Lemma try_unlink_linked h p a :
  rd h a Prev = Some (Some p) → (∃ n, rd h a Next = Some (Some n)) →
  Base.try_unlink h a = Base.unlink h a.
Proof.
  intros Hp [n Hn]. unfold Base.try_unlink. by repeat step.
Qed.

(** C3.  Destroying an element that is linked in a list removes exactly that
    element: the list keeps its other elements in order, [begin()] is the
    first remaining element, the former predecessor's [next] and the former
    successor's [prev] now point at each other, the element's storage is
    gone, and no other member of any other node is written.  For the list
    [A; B; C] and the element [B] this is: the list becomes [A; C],
    [begin()] is [A], [A.next == C] and [C.prev == A]. *)
Theorem destroy_linked_element (h : heap) (fake : addr) (xs : list addr)
    (b : addr) (ys : list addr) :
  is_list h fake (xs ++ b :: ys) →
  ∃ h', Element.destroy h b = Done h' ∧
        is_list h' fake (xs ++ ys) ∧
        IList.begin h' fake = Done (mk_iter (Some (hd fake (xs ++ ys)))) ∧
        rd h' (end_of fake xs) Next = Some (Some (hd fake ys)) ∧
        rd h' (hd fake ys) Prev = Some (Some (end_of fake xs)) ∧
        h' !! b = None ∧
        (∀ a g, a ≠ b → (a, g) ≠ (end_of fake xs, Next) →
                (a, g) ≠ (hd fake ys, Prev) → rd h' a g = rd h a g).
Proof.
  intros Hl.
  destruct (unlink_is_list _ _ _ _ _ Hl) as (Hpb & Hbn & Hne1 & Hne2 & Hu & Hl' & Hb).
  set (p := end_of fake xs) in *. set (n := hd fake ys) in *.
  assert (∀ a g, rd (unlink_heap h p b n) a g =
    if decide (a = b) then Some nullptr
    else if decide (a = p ∧ g = Next) then Some (Some n)
    else if decide (a = n ∧ g = Prev) then Some (Some p)
    else rd h a g) as Hrd.
  { intros a g. apply unlink_heap_rd; [alloc_tac..|done|done]. }
  assert (b ∉ fake :: xs ++ ys) as Hbnin.
  { destruct Hl as [_ Hnd]. rewrite app_comm_cons in Hnd.
    apply NoDup_app in Hnd as (_ & Hd & Hnd). apply NoDup_cons in Hnd as [Hb' _].
    rewrite app_comm_cons. intros [Hin|Hin]%elem_of_app; [|done].
    apply (Hd _ Hin). set_solver. }
  assert (is_list (delete b (unlink_heap h p b n)) fake (xs ++ ys)) as Hl''.
  { revert Hl'. apply (ring_same _ _ (fake :: xs ++ ys)).
    intros x f Hx. apply rd_delete. intros ->. done. }
  exists (delete b (unlink_heap h p b n)). split_and!.
  - unfold Element.destroy, Element.dtor.
    rewrite (try_unlink_linked h p b); [|apply Hpb|exists n; apply Hbn].
    by rewrite Hu.
  - done.
  - by apply is_list_begin.
  - rewrite rd_delete by done. rewrite Hrd.
    rewrite decide_False by done. by rewrite decide_True.
  - rewrite rd_delete by done. rewrite Hrd.
    repeat case_decide; naive_solver.
  - apply lookup_delete_eq.
  - intros a g Ha H1 H2. rewrite rd_delete by done. rewrite Hrd.
    repeat case_decide; naive_solver.
Qed.

Lemma erase_unlinks_and_returns_next (h : heap) (fake : addr) (xs : list addr)
    (x : addr) (ys : list addr) :
  is_list h fake (xs ++ x :: ys) →
  ∃ h', IList.erase h fake (mk_iter (Some x)) = Done (h', mk_iter (Some (hd fake ys))) ∧
        is_list h' fake (xs ++ ys) ∧
        unlinked h' x ∧
        (∀ a g, a ≠ x → (a, g) ≠ (end_of fake xs, Next) →
                (a, g) ≠ (hd fake ys, Prev) → rd h' a g = rd h a g).
Proof.
  intros Hl.
  destruct (unlink_is_list _ _ _ _ _ Hl) as (Hpb & Hbn & Hne1 & Hne2 & Hu & Hl' & Hb).
  set (p := end_of fake xs) in *. set (n := hd fake ys) in *.
  exists (unlink_heap h p x n). split_and!; try done.
  - unfold IList.erase. simpl. destruct Hbn as [Hbn _]. step. by rewrite Hu.
  - intros a g Ha H1 H2.
    rewrite unlink_heap_rd; [|alloc_tac..|done|done].
    repeat case_decide; naive_solver.
Qed.

(** C6.  For a list in any (well-formed) state, [clear()] completes once the
    loop is given as many iterations as the list has elements; afterwards
    [empty()] returns [true], and every element that was linked is unlinked
    (both pointers null), so that [try_unlink] on it changes nothing. *)
Theorem clear_empties_and_unlinks (fuel : nat) (h : heap) (L : addr) (xs : list addr) :
  is_list h L xs → length xs ≤ fuel →
  ∃ h', IList.clear fuel h L = Done h' ∧
        IList.empty h' L = Done true ∧
        (∀ x, x ∈ xs → unlinked h' x ∧ Base.try_unlink h' x = Done h').
Proof.
  intros Hl Hfuel. exists (clear_heap h L xs).
  destruct (clear_is_list _ _ _ Hl) as [Hl' Hun]. split_and!.
  - by apply clear_spec.
  - by rewrite (is_list_empty _ _ [] Hl').
  - intros x Hx. split; [by apply Hun|]. apply try_unlink_unlinked. by apply Hun.
Qed.

(** ** Pushing, iterating, taking over a whole list *)

Lemma insert_heap_alloc h p this obj a : alloc (insert_heap h p this obj) a ↔ alloc h a.
Proof. unfold insert_heap. by rewrite !alloc_upd. Qed.

Lemma unlink_heap_alloc h p x n a : alloc (unlink_heap h p x n) a ↔ alloc h a.
Proof. unfold unlink_heap. by rewrite !alloc_upd. Qed.

Lemma splice_heap_alloc h P F L this first last a :
  alloc (splice_heap h P F L this first last) a ↔ alloc h a.
Proof. unfold splice_heap. by rewrite !alloc_upd. Qed.

Lemma clear_heap_alloc h this xs a : alloc (clear_heap h this xs) a ↔ alloc h a.
Proof. unfold clear_heap. by rewrite !alloc_upd, foldl_reset_alloc. Qed.

Lemma push_back_is_list h l xs obj :
  is_list h l xs → alloc h obj → obj ∉ l :: xs →
  ∃ h', IList.push_back h l obj = Done h' ∧ is_list h' l (xs ++ [obj]) ∧
        (∀ a, alloc h' a ↔ alloc h a).
Proof.
  intros Hl Ho Hnin.
  destruct (insert_is_list h l xs [] obj) as [H1 H2].
  - by rewrite app_nil_r.
  - done.
  - by rewrite app_nil_r.
  - simpl in H1, H2. eexists. split_and!; [apply H1|apply H2|].
    intros a. apply insert_heap_alloc.
Qed.

Lemma erase_is_list h l xs x ys :
  is_list h l (xs ++ x :: ys) →
  ∃ h', IList.erase h l (mk_iter (Some x)) = Done (h', mk_iter (Some (hd l ys))) ∧
        is_list h' l (xs ++ ys).
Proof.
  intros Hl.
  destruct (unlink_is_list _ _ _ _ _ Hl) as (Hpb & [Hbn _] & Hne1 & Hne2 & Hu & Hl' & Hb).
  eexists. split; [|apply Hl'].
  unfold IList.erase. simpl. step. by rewrite Hu.
Qed.

Lemma erase_scenario_result h l A B C :
  is_list h l [] → alloc h A → alloc h B → alloc h C → NoDup [l; A; B; C] →
  erase_scenario h l A B C = Done (C, A, C, false, true).
Proof.
  intros Hl HA HB HC Hnd.
  apply NoDup_cons in Hnd as [Hl1 Hnd]. apply NoDup_cons in Hnd as [HA1 Hnd].
  apply NoDup_cons in Hnd as [HB1 _].
  destruct (push_back_is_list h l [] A Hl HA) as (h1 & E1 & L1 & A1); [set_solver|].
  destruct (push_back_is_list h1 l [A] B L1) as (h2 & E2 & L2 & A2);
    [by apply A1|set_solver|].
  destruct (push_back_is_list h2 l [A; B] C L2) as (h3 & E3 & L3 & A3);
    [by apply A2, A1|set_solver|].
  simpl in L3.
  destruct (erase_is_list h3 l [A] B [C] L3) as (h4 & E4 & L4). simpl in E4, L4.
  destruct (erase_is_list h4 l [] A [C] L4) as (h5 & E5 & L5). simpl in E5, L5.
  destruct (erase_is_list h5 l [] C [] L5) as (h6 & E6 & L6). simpl in E6, L6.
  unfold erase_scenario, to_base.
  rewrite E1, bind_Done, E2, bind_Done, E3, bind_Done, E4, bind_Done. simpl.
  rewrite (is_list_front _ _ _ _ L4), bind_Done.
  rewrite (is_list_back _ _ [A] C L4), bind_Done.
  rewrite (is_list_empty _ _ _ L4), bind_Done.
  rewrite E5, bind_Done. simpl. rewrite E6, bind_Done. simpl.
  by rewrite (is_list_empty _ _ _ L6), bind_Done.
Qed.

Lemma advance_path h a l i x :
  path h a l → l !! i = Some x →
  advance h (S i) (mk_iter (Some a)) = Done (mk_iter (Some x)).
Proof.
  revert a i. induction l as [|b t IH]; intros a i Hp Hi; [done|].
  destruct Hp as [[Hn _] Hp]. simpl. unfold Iter.incr. simpl. step.
  destruct i as [|i]; simpl in Hi.
  - by simplify_eq.
  - by apply (IH b i).
Qed.

Lemma is_list_nth_iterator h l xs i x :
  is_list h l xs → xs !! i = Some x →
  nth_iterator h l i = Done (mk_iter (Some x)).
Proof.
  intros [Hp _] Hi.
  apply (advance_path h l (xs ++ [l]) i x Hp). by apply lookup_app_l_Some.
Qed.

(** Taking over all elements of [src] with a full-range splice into the
    empty list [dst]: the body shared by the move constructor and the move
    assignment. *)
Lemma splice_all h dst src xs :
  is_list h dst [] → is_list h src xs → dst ∉ src :: xs →
  ∃ h', (b ← IList.begin h src;
         IList.splice h dst (IList.end_ dst) src b (IList.end_ src)) = Done h' ∧
        is_list h' dst xs ∧ is_list h' src [] ∧
        (∀ a, alloc h' a ↔ alloc h a) ∧
        (∀ a g, a ∉ dst :: src :: xs → rd h' a g = rd h a g).
Proof.
  intros Hd Hs Hnin. rewrite (is_list_begin _ _ _ Hs), bind_Done.
  unfold IList.splice, IList.end_. simpl.
  destruct xs as [|first rs]; simpl.
  - exists h. unfold Base.splice. rewrite bool_decide_true by done. done.
  - pose proof Hs as [Hp Hnd]. destruct Hd as [[Hdd _] _].
    simpl in Hp. destruct Hp as [Hsf Hp]. apply path_snoc in Hp as [Hp HL].
    apply NoDup_cons in Hnd as [Hsrc Hnd].
    assert (dst ≠ src) as Hne by set_solver.
    destruct (splice_path h dst dst src first rs src) as (E & P' & L' & Fr);
      [done|done|done|done|done|set_solver|done|done|].
    eexists. split_and!; [apply E| | | |].
    + split; [done|]. apply NoDup_cons. split; [set_solver|done].
    + split; [|apply NoDup_singleton]. simpl. done.
    + intros a. apply splice_heap_alloc.
    + intros a g Ha. apply Fr.
      * assert (end_of first rs ∈ first :: rs) by apply end_of_elem. set_solver.
      * set_solver.
Qed.

(** ** Moving a list *)

Lemma ctor_is_list h l : is_list (IList.ctor h l) l [].
Proof.
  split; [|apply NoDup_singleton]. simpl. unfold links, rd, IList.ctor.
  by rewrite lookup_insert_eq.
Qed.

Lemma ctor_alloc h l a : alloc (IList.ctor h l) a ↔ a = l ∨ alloc h a.
Proof.
  unfold alloc, IList.ctor. destruct (decide (a = l)) as [->|Hne].
  - rewrite lookup_insert_eq. naive_solver.
  - rewrite lookup_insert_ne by done. naive_solver.
Qed.

(** C4.  Move-constructing a list at the fresh address [M2] from the list
    [M1] leaves [M1] empty and [M2] holding the former elements of [M1] in
    the same order.  No element is copied or destroyed: the only new object
    is the sentinel of [M2], and nodes outside the two lists are not
    written.  An iterator to the [i]-th element taken from [M1] before the
    move is the iterator to the [i]-th element of [M2] after it, and
    dereferences to the same element. *)
Theorem move_ctor_takes_over (h : heap) (M1 M2 : addr) (xs : list addr) :
  is_list h M1 xs → h !! M2 = None →
  ∃ h', IList.move_ctor h M2 M1 = Done h' ∧
        is_list h' M1 [] ∧
        is_list h' M2 xs ∧
        (∀ a, alloc h' a ↔ a = M2 ∨ alloc h a) ∧
        (∀ a g, a ∉ M2 :: M1 :: xs → rd h' a g = rd h a g) ∧
        (∀ i x, xs !! i = Some x →
           ∃ it, nth_iterator h M1 i = Done it ∧
                 nth_iterator h' M2 i = Done it ∧
                 Iter.star it = Done x).
Proof.
  intros Hl Hfresh.
  assert (M2 ∉ M1 :: xs) as Hnin.
  { intros Hin. apply (ring_alloc h (M1 :: xs)) in Hin; [|done].
    destruct Hin as [? Hin]. congruence. }
  assert (is_list (IList.ctor h M2) M1 xs) as Hl0.
  { revert Hl. apply (ring_same _ _ (M1 :: xs)). intros x f Hx.
    apply rd_insert_ne. intros ->. done. }
  destruct (splice_all (IList.ctor h M2) M2 M1 xs (ctor_is_list h M2) Hl0 Hnin)
    as (h' & E & L2 & L1 & Ha & Fr).
  exists h'. split_and!; try done.
  - intros a. rewrite Ha. apply ctor_alloc.
  - intros a g Hnin'. rewrite Fr by done. apply rd_insert_ne. set_solver.
  - intros i x Hi. exists (mk_iter (Some x)). split_and!.
    + by apply (is_list_nth_iterator h M1 xs).
    + by apply (is_list_nth_iterator h' M2 xs).
    + done.
Qed.

(** C9.  Move assignment first clears the destination: every element linked
    in it becomes unlinked, and only then the source's elements are taken
    over.  Consequently [l = std::move(l)] leaves [l] empty with all of its
    former elements unlinked. *)
Theorem move_assign_clears_first (fuel : nat) (h : heap) (this : addr) (xs : list addr) :
  is_list h this xs → length xs ≤ fuel →
  (∀ other ys, is_list h other ys → (∀ a, a ∈ this :: xs → a ∉ other :: ys) →
     ∃ h1 h', Base.clear fuel h this = Done h1 ∧
              (∀ x, x ∈ xs → unlinked h1 x) ∧
              is_list h1 other ys ∧
              IList.move_assign fuel h this other = Done h' ∧
              (∀ x, x ∈ xs → unlinked h' x) ∧
              is_list h' this ys ∧ is_list h' other []) ∧
  (∃ h', IList.move_assign fuel h this this = Done h' ∧
         is_list h' this [] ∧
         (∀ x, x ∈ xs → unlinked h' x)).
Proof.
  intros Hl Hfuel.
  pose proof (clear_spec fuel h this xs Hl Hfuel) as Hc.
  destruct (clear_is_list h this xs Hl) as [Hl1 Hun].
  split.
  - intros other ys Ho Hdisj.
    assert (is_list (clear_heap h this xs) other ys) as Ho1.
    { revert Ho. apply (ring_same _ _ (other :: ys)). intros x f Hx.
      rewrite (clear_heap_rd h this xs) by done.
      assert (x ∉ this :: xs) by (intros Hin; by apply (Hdisj x)).
      repeat case_decide; set_solver. }
    assert (this ∉ other :: ys) as Hnin by (apply Hdisj; set_solver).
    destruct (splice_all _ this other ys Hl1 Ho1 Hnin) as (h' & E & L2 & L1 & Ha & Fr).
    exists (clear_heap h this xs), h'. split_and!; try done.
    + unfold IList.move_assign. by rewrite Hc, bind_Done.
    + intros x Hx. apply unlinked_rd.
      assert (x ∉ this :: other :: ys).
      { assert (x ∉ other :: ys) by (apply Hdisj; set_solver).
        destruct Hl as [_ [Hthis _]%NoDup_cons]. set_solver. }
      rewrite !Fr by done. apply unlinked_rd. by apply Hun.
  - exists (clear_heap h this xs). split_and!; try done.
    unfold IList.move_assign. rewrite Hc, bind_Done.
    rewrite (is_list_begin _ _ _ Hl1), bind_Done.
    unfold IList.splice, IList.end_, Base.splice. simpl.
    by rewrite bool_decide_true.
Qed.

(** ** [splice] against erasing and inserting one element at a time *)

Lemma range_preds_outside h P pos F first rs last :
  links h P pos → links h F first → path h first rs →
  links h (end_of first rs) last →
  NoDup (first :: rs) → pos ∉ first :: rs → last ∉ first :: rs → pos ≠ last →
  (P ∉ first :: rs) ∧ (F ∉ first :: rs) ∧ P ≠ F.
Proof.
  set (L := end_of first rs).
  intros HP HF Hrs HL Hnd Hpos Hlast Hpl.
  assert (pos ≠ first) as Hpf by set_solver.
  split_and!.
  - rewrite (front_end first rs). fold L. intros [Hin|Hin]%elem_of_app.
    + destruct (path_next _ _ _ _ Hrs Hin) as (y & Hy & Hxy).
      rewrite (links_inj_r _ _ _ _ HP Hxy) in Hpos. set_solver.
    + apply list_elem_of_singleton in Hin as ->.
      by rewrite (links_inj_r _ _ _ _ HP HL) in Hpl.
  - rewrite (front_end first rs). fold L. intros [Hin|Hin]%elem_of_app.
    + destruct (path_next _ _ _ _ Hrs Hin) as (y & Hy & Hxy).
      rewrite <- (links_inj_r _ _ _ _ HF Hxy) in Hy.
      by apply NoDup_cons in Hnd as [? _].
    + apply list_elem_of_singleton in Hin as ->.
      rewrite (links_inj_r _ _ _ _ HF HL) in Hlast. set_solver.
  - intros ->. by rewrite (links_inj_r _ _ _ _ HP HF) in Hpf.
Qed.

(** One round of the reference loop: erase [x], insert it before [pos]. *)
Lemma erase_insert_round h X Y P F pos x nx :
  links h P pos → links h F x → links h x nx →
  F ≠ x → pos ≠ x → pos ≠ nx → P ≠ x →
  IList.erase h X (mk_iter (Some x)) = Done (unlink_heap h F x nx, mk_iter (Some nx)) ∧
  IList.insert (unlink_heap h F x nx) Y (mk_iter (Some pos)) x
    = Done (insert_heap (unlink_heap h F x nx) P pos x, mk_iter (Some x)).
Proof.
  intros HP HF Hx HFx Hpx Hpn HPx. split.
  - unfold IList.erase. simpl. destruct Hx as [Hxn Hnx]. step.
    by rewrite (unlink_spec h F x nx).
  - unfold IList.insert, to_base. simpl.
    assert (nx ≠ x) as Hnx by (intros ->; destruct HF, Hx; congruence).
    rewrite (insert_spec _ P pos x); [done| |by apply unlink_heap_alloc; alloc_tac..].
    rewrite unlink_heap_rd; [|alloc_tac..|done|done].
    destruct HP as [_ HP]. repeat case_decide; naive_solver.
Qed.

Lemma erase_insert_each_splice X Y pos last rs : ∀ h P F first,
  links h P pos → links h F first → path h first rs →
  links h (end_of first rs) last →
  NoDup (first :: rs) → pos ∉ first :: rs → last ∉ first :: rs → pos ≠ last →
  erase_insert_each h X Y (mk_iter (Some pos)) (first :: rs)
  = Done (splice_heap h P F (end_of first rs) pos first last).
Proof.
  induction rs as [|x2 rs' IH]; intros h P F first HP HF Hrs HL Hnd Hpos Hlast Hpl.
  - simpl in HL.
    destruct (range_preds_outside h P pos F first [] last) as (HPn & HFn & HPF); try done.
    assert (first ≠ last) as Hfl by set_solver.
    assert (pos ≠ first) as Hpf by set_solver.
    assert (F ≠ first) as HFf by set_solver.
    assert (P ≠ first) as HPf by set_solver.
    destruct (erase_insert_round h X Y P F pos first last) as [E1 E2]; try done.
    cbn [erase_insert_each]. unfold to_base.
    rewrite E1, bind_Done. cbn [fst snd]. rewrite E2, bind_Done. cbn [fst snd].
    simpl. f_equal. apply heap_ext. intros b g.
    rewrite insert_heap_rd; [|by apply unlink_heap_alloc; alloc_tac..|done|done].
    rewrite unlink_heap_rd; [|alloc_tac..|done|done].
    rewrite splice_heap_rd; [|alloc_tac..|done|done|done|done|done|done].
    destruct HP, HF, HL.
    destruct g; repeat case_decide; destruct_and?; simplify_eq; try done; naive_solver.
  - destruct (range_preds_outside h P pos F first (x2 :: rs') last) as (HPn & HFn & HPF); try done.
    simpl in Hrs. destruct Hrs as [Hfx Hrs]. simpl in HL.
    set (L := end_of x2 rs') in *.
    assert (L ∈ x2 :: rs') as HLin by apply end_of_elem.
    apply NoDup_cons in Hnd as [Hf Hnd].
    assert (first ≠ last) as Hfl by set_solver.
    assert (pos ≠ first) as Hpf by set_solver.
    assert (F ≠ first) as HFf by set_solver.
    assert (P ≠ first) as HPf by set_solver.
    assert (pos ≠ x2) as Hpx by set_solver.
    assert (first ≠ x2) as Hfx2 by set_solver.
    assert (x2 ≠ last) as Hxl by set_solver.
    assert (P ≠ x2) as HPx by set_solver.
    assert (F ≠ x2) as HFx by set_solver.
    assert (L ≠ first) as HLf by (intros Heq; rewrite Heq in HLin; done).
    assert (L ≠ P) as HLP by (intros Heq; rewrite Heq in HLin; set_solver).
    assert (L ≠ F) as HLF by (intros Heq; rewrite Heq in HLin; set_solver).
    assert (L ≠ pos) as HLpos by (intros Heq; rewrite Heq in HLin; set_solver).
    assert (L ≠ last) as HLlast by (intros Heq; rewrite Heq in HLin; set_solver).
    destruct (erase_insert_round h X Y P F pos first x2) as [E1 E2]; try done.
    cbn [erase_insert_each]. unfold to_base.
    rewrite E1, bind_Done. cbn [fst snd]. rewrite E2, bind_Done. cbn [fst snd].
    set (h2 := insert_heap (unlink_heap h F first x2) P pos first).
    assert (∀ b g, rd h2 b g =
      if decide (b = first) then Some (Some (match g with Prev => P | Next => pos end))
      else if decide (b = P ∧ g = Next) then Some (Some first)
      else if decide (b = pos ∧ g = Prev) then Some (Some first)
      else if decide (b = F ∧ g = Next) then Some (Some x2)
      else if decide (b = x2 ∧ g = Prev) then Some (Some F)
      else rd h b g) as Hrd2.
    { intros b g. unfold h2.
      rewrite insert_heap_rd; [|by apply unlink_heap_alloc; alloc_tac..|done|done].
      rewrite unlink_heap_rd; [|alloc_tac..|done|done].
      repeat case_decide; destruct_and?; simplify_eq; try done; naive_solver. }
    assert (∀ a, alloc h2 a ↔ alloc h a) as Hal2.
    { intros a. unfold h2. by rewrite insert_heap_alloc, unlink_heap_alloc. }
    transitivity (Done (splice_heap h2 first F (end_of x2 rs') pos x2 last));
      [apply (IH h2 first F x2)|].
    9: { f_equal. apply heap_ext. intros b g. fold L.
      rewrite splice_heap_rd; [|apply Hal2; alloc_tac..|done|done|done|done|done|done].
      rewrite splice_heap_rd; [|alloc_tac..|done|done|done|done|done|done].
      rewrite !Hrd2.
      destruct HP, HF, HL, Hfx.
      destruct g; repeat case_decide; destruct_and?; simplify_eq; try done; naive_solver. }
    + unfold links. rewrite !Hrd2. split; repeat case_decide; naive_solver.
    + unfold links. rewrite !Hrd2. split; repeat case_decide; naive_solver.
    + revert Hrs. apply path_frame.
      * intros y Hy%front_of_elem. rewrite Hrd2.
        repeat case_decide; destruct_and?; simplify_eq; try done; set_solver.
      * intros y Hy. rewrite Hrd2. apply NoDup_cons in Hnd as [Hx2 _].
        repeat case_decide; destruct_and?; simplify_eq; try done; set_solver.
    + fold L. destruct HL. unfold links. rewrite !Hrd2.
      split; repeat case_decide; destruct_and?; simplify_eq; try done; naive_solver.
    + done.
    + set_solver.
    + set_solver.
    + done.
Qed.

(** [splice] and the element-wise reference agree whenever [pos] lies
    outside the closed range [[first, last]]. *)
Lemma splice_refines_reference fuel h X Y P F pos first rs last :
  links h P pos → links h F first → path h first rs →
  links h (end_of first rs) last →
  NoDup (first :: rs) → pos ∉ first :: rs → last ∉ first :: rs → pos ≠ last →
  length (first :: rs) ≤ fuel →
  IList.splice h Y (mk_iter (Some pos)) X (mk_iter (Some first)) (mk_iter (Some last))
    = Done (splice_heap h P F (end_of first rs) pos first last) ∧
  splice_reference fuel h X Y (mk_iter (Some pos)) (mk_iter (Some first))
      (mk_iter (Some last))
    = Done (splice_heap h P F (end_of first rs) pos first last).
Proof.
  intros HP HF Hrs HL Hnd Hpos Hlast Hpl Hfuel. split.
  - unfold IList.splice. simpl. by apply (splice_path h P pos F first rs last).
  - unfold splice_reference.
    pose proof (walk_fwd_path fuel h last (first :: rs) F) as Hw. simpl in Hw.
    rewrite Hw; [| |done|done].
    + rewrite bind_Done. by apply erase_insert_each_splice.
    + split; [done|]. by apply path_snoc.
Qed.

(** ** The node invariant is preserved *)

Lemma node_ok_rd h a :
  node_ok h a ↔
  (rd h a Prev = Some nullptr ∧ rd h a Next = Some nullptr) ∨
  (∃ p n, rd h a Prev = Some (Some p) ∧ rd h a Next = Some (Some n) ∧
          rd h p Next = Some (Some a) ∧ rd h n Prev = Some (Some a)).
Proof. unfold node_ok, links. rewrite unlinked_rd. naive_solver. Qed.

Ltac rd_split :=
  repeat (case_decide; destruct_and?; simplify_eq); try done; try congruence;
  try (exfalso; naive_solver).

Lemma wf_unlink h p a n :
  wf h → links h p a → links h a n → p ≠ a → wf (unlink_heap h p a n).
Proof.
  intros Hwf [Hpn Hap] [Han Hna] Hpa b Hb.
  assert (n ≠ a) as Hna' by congruence.
  apply unlink_heap_alloc in Hb. specialize (Hwf b Hb).
  assert (∀ b g, rd (unlink_heap h p a n) b g =
    if decide (b = a) then Some nullptr
    else if decide (b = p ∧ g = Next) then Some (Some n)
    else if decide (b = n ∧ g = Prev) then Some (Some p)
    else rd h b g) as Hrd.
  { intros c g. apply unlink_heap_rd; [alloc_tac..|done|done]. }
  apply node_ok_rd. apply node_ok_rd in Hwf.
  destruct (decide (b = a)) as [->|Hba].
  { left. rewrite !Hrd. by rewrite !decide_True. }
  destruct Hwf as [[Hu1 Hu2]|(pb & nb & H1 & H2 & H3 & H4)].
  - left. rewrite !Hrd. rd_split.
  - right.
    exists (if decide (b = n) then p else pb), (if decide (b = p) then n else nb).
    rewrite !Hrd. split_and!; rd_split.
Qed.

Lemma wf_insert h p this obj :
  wf h → links h p this → unlinked h obj → wf (insert_heap h p this obj).
Proof.
  intros Hwf [Hpn Htp] [Ho1 Ho2]%unlinked_rd b Hb. unfold nullptr in *.
  assert (obj ≠ this) as Hot by congruence.
  assert (obj ≠ p) as Hop by congruence.
  apply insert_heap_alloc in Hb. specialize (Hwf b Hb).
  assert (∀ b g, rd (insert_heap h p this obj) b g =
    if decide (b = obj) then Some (Some (match g with Prev => p | Next => this end))
    else if decide (b = p ∧ g = Next) then Some (Some obj)
    else if decide (b = this ∧ g = Prev) then Some (Some obj)
    else rd h b g) as Hrd.
  { intros c g. apply insert_heap_rd; [alloc_tac..|done|done]. }
  apply node_ok_rd. apply node_ok_rd in Hwf.
  destruct (decide (b = obj)) as [->|Hbo].
  { right. exists p, this. rewrite !Hrd. split_and!; rd_split. }
  destruct Hwf as [[Hu1 Hu2]|(pb & nb & H1 & H2 & H3 & H4)].
  - left. rewrite !Hrd. rd_split.
  - right.
    exists (if decide (b = this) then obj else pb), (if decide (b = p) then obj else nb).
    rewrite !Hrd. split_and!; rd_split.
Qed.

Lemma wf_splice h P F L this first last :
  wf h → links h P this → links h F first → links h L last →
  first ≠ last → this ≠ first → this ≠ last →
  wf (splice_heap h P F L this first last).
Proof.
  intros Hwf [HPn HtP] [HFn HfP] [HLn HlP] Hfl Htf Htl b Hb.
  assert (P ≠ F ∧ F ≠ L ∧ P ≠ L) as (HPF & HFL & HPL) by (split_and!; congruence).
  apply splice_heap_alloc in Hb. specialize (Hwf b Hb).
  assert (∀ b g, rd (splice_heap h P F L this first last) b g =
    match g with
    | Next =>
        if decide (b = P) then Some (Some first)
        else if decide (b = F) then Some (Some last)
        else if decide (b = L) then Some (Some this)
        else rd h b Next
    | Prev =>
        if decide (b = this) then Some (Some L)
        else if decide (b = last) then Some (Some F)
        else if decide (b = first) then Some (Some P)
        else rd h b Prev
    end) as Hrd.
  { intros c g. apply splice_heap_rd; first [alloc_tac | done]. }
  apply node_ok_rd. apply node_ok_rd in Hwf.
  destruct Hwf as [[Hu1 Hu2]|(pb & nb & H1 & H2 & H3 & H4)].
  - left. rewrite !Hrd. rd_split.
  - right.
    exists (if decide (b = this) then L else if decide (b = last) then F
            else if decide (b = first) then P else pb),
           (if decide (b = P) then first else if decide (b = F) then last
            else if decide (b = L) then this else nb).
    rewrite !Hrd. split_and!; rd_split.
Qed.

Lemma wf_clear h this xs :
  wf h → is_list h this xs → wf (clear_heap h this xs).
Proof.
  intros Hwf Hl b Hb. pose proof Hl as [Hp Hnd].
  apply clear_heap_alloc in Hb. specialize (Hwf b Hb).
  apply node_ok_rd. apply node_ok_rd in Hwf.
  rewrite !(clear_heap_rd h this xs) by done.
  destruct (decide (b = this)) as [->|Hbt].
  { right. exists this, this. rewrite !(clear_heap_rd h this xs) by done.
    by rewrite !decide_True. }
  destruct (decide (b ∈ xs)) as [Hin|Hnin]; [by left|].
  destruct Hwf as [Hu|(pb & nb & H1 & H2 & H3 & H4)]; [by left|].
  right. exists pb, nb. rewrite !(clear_heap_rd h this xs) by done.
  (* neighbours of a node outside the ring are outside the ring *)
  assert (∀ c, c ∈ this :: xs → ∃ pc nc, pc ∈ this :: xs ∧ nc ∈ this :: xs ∧
            links h pc c ∧ links h c nc) as Hclosed.
  { intros c Hc. apply list_elem_of_split in Hc as (l1 & l2 & Heq).
    assert (ring h (c :: l2 ++ l1)) as Hr.
    { destruct l1 as [|a l1']; simpl in Heq.
      - simplify_eq. by rewrite app_nil_r.
      - simplify_eq. by apply (is_list_rotate h a l1' c l2). }
    destruct Hr as [Hpc _].
    pose proof (path_head _ _ _ _ Hpc) as Hn.
    apply path_snoc in Hpc as [_ Hpr].
    exists (end_of c (l2 ++ l1)), (hd c (l2 ++ l1)). split_and!; try done.
    - pose proof (end_of_elem c (l2 ++ l1)) as He. rewrite Heq. set_solver.
    - rewrite Heq. destruct l2 as [|y l2']; simpl.
      + destruct l1 as [|y l1']; simpl; set_solver.
      + set_solver. }
  assert (pb ∉ this :: xs) as Hpb.
  { intros Hin. destruct (Hclosed pb Hin) as (_ & nc & _ & Hnc & _ & [Hl1 _]).
    assert (nc = b) by congruence. subst. set_solver. }
  assert (nb ∉ this :: xs) as Hnb.
  { intros Hin. destruct (Hclosed nb Hin) as (pc & _ & Hpc & _ & [_ Hl1] & _).
    assert (pc = b) by congruence. subst. set_solver. }
  split_and!; try done; repeat case_decide; try done; set_solver.
Qed.

Lemma wf_try_unlink h a :
  wf h → alloc h a → ¬ links h a a →
  ∃ h', Base.try_unlink h a = Done h' ∧ wf h' ∧ unlinked h' a.
Proof.
  intros Hwf Ha Hself. destruct (Hwf a Ha) as [Hu|(p & n & Hp & Hn)].
  - exists h. split_and!; [by apply try_unlink_unlinked|done|done].
  - assert (p ≠ a) as Hpa by (intros ->; done).
    exists (unlink_heap h p a n). split_and!.
    + rewrite (try_unlink_linked h p a); [by apply unlink_spec|apply Hp|].
      exists n. apply Hn.
    + by apply wf_unlink.
    + apply unlinked_rd.
      assert (n ≠ a) by (intros ->; destruct Hp, Hn; congruence).
      rewrite !unlink_heap_rd by first [alloc_tac | done].
      by rewrite !decide_True.
Qed.

(** ** The remaining list operations *)

Lemma push_front_is_list h l xs obj :
  is_list h l xs → alloc h obj → obj ∉ l :: xs →
  ∃ h', IList.push_front h l obj = Done h' ∧ is_list h' l (obj :: xs).
Proof.
  intros Hl Ho Hnin.
  destruct (insert_is_list h l [] xs obj Hl Ho Hnin) as [H1 H2].
  eexists. split; [|apply H2].
  destruct Hl as [[Hn _]%path_head _].
  unfold IList.push_front, to_base. repeat step. exact H1.
Qed.

Lemma list_insert_is_list h l xs ys obj :
  is_list h l (xs ++ ys) → alloc h obj → obj ∉ l :: xs ++ ys →
  ∃ h', IList.insert h l (mk_iter (Some (hd l ys))) obj
          = Done (h', mk_iter (Some obj)) ∧
        is_list h' l (xs ++ obj :: ys).
Proof.
  intros Hl Ho Hnin.
  destruct (insert_is_list h l xs ys obj Hl Ho Hnin) as [H1 H2].
  eexists. split; [|apply H2]. unfold IList.insert, to_base. simpl.
  by rewrite H1.
Qed.

Lemma pop_back_is_list h l xs x :
  is_list h l (xs ++ [x]) →
  ∃ h', IList.pop_back h l = Done h' ∧ is_list h' l xs ∧ unlinked h' x.
Proof.
  intros Hl.
  destruct (unlink_is_list h l xs x [] Hl) as (_ & _ & _ & _ & Hu & Hl' & Hx).
  rewrite app_nil_r in Hl'.
  eexists. split_and!; [|apply Hl'|apply Hx].
  destruct Hl as [[_ [_ Hp]]%path_snoc _]. rewrite end_of_snoc in Hp.
  unfold IList.pop_back. repeat step. exact Hu.
Qed.

Lemma pop_front_is_list h l x xs :
  is_list h l (x :: xs) →
  ∃ h', IList.pop_front h l = Done h' ∧ is_list h' l xs ∧ unlinked h' x.
Proof.
  intros Hl.
  destruct (unlink_is_list h l [] x xs Hl) as (_ & _ & _ & _ & Hu & Hl' & Hx).
  eexists. split_and!; [|apply Hl'|apply Hx].
  destruct Hl as [[[Hn _] _] _].
  unfold IList.pop_front. repeat step. exact Hu.
Qed.

Lemma dtor_unlinks_elements fuel h l xs :
  is_list h l xs → length xs ≤ fuel →
  ∃ h', IList.dtor fuel h l = Done h' ∧ (∀ x, x ∈ xs → unlinked h' x).
Proof.
  intros Hl Hfuel. exists (clear_heap h l xs). split.
  - by apply clear_spec.
  - by apply clear_is_list.
Qed.

(** ** The invariant, computed; the concrete stores *)

Lemma node_okb_spec h a : node_okb h a = true ↔ node_ok h a.
Proof.
  rewrite node_ok_rd. unfold node_okb, nullptr.
  destruct (h !! a) as [[p n]|] eqn:Ha.
  - assert (rd h a Prev = Some p) as -> by (unfold rd; by rewrite Ha).
    assert (rd h a Next = Some n) as -> by (unfold rd; by rewrite Ha).
    destruct p as [p|], n as [n|]; simpl.
    + rewrite andb_true_iff, !bool_decide_eq_true. split.
      * intros [H1 H2]. right. by exists p, n.
      * intros [[? _]|(p' & n' & ? & ? & ? & ?)]; [done|]. by simplify_eq.
    + split; [done|]. intros [[? _]|(p' & n' & ? & ? & _)]; done.
    + split; [done|]. intros [[_ ?]|(p' & n' & ? & ? & _)]; done.
    + split; [|done]. intros _. by left.
  - assert (rd h a Prev = None) as -> by (unfold rd; by rewrite Ha).
    split; [done|]. intros [[? _]|(p' & n' & ? & _)]; done.
Qed.

Lemma wfb_spec h : wfb h = true ↔ wf h.
Proof.
  unfold wfb, wf, alloc. rewrite bool_decide_eq_true. unfold map_Forall. split.
  - intros H a [nd Ha]. apply node_okb_spec. by eapply H.
  - intros H a nd Ha. apply node_okb_spec, H. by eexists.
Qed.

Lemma demo_AB_built :
  (h1 ← IList.push_back demo_fresh 1%positive 2%positive;
   IList.push_back h1 1%positive 3%positive) = Done demo_AB.
Proof. vm_compute. reflexivity. Qed.

Lemma demo_ABC_built :
  (h1 ← IList.push_back demo_fresh 1%positive 2%positive;
   h2 ← IList.push_back h1 1%positive 3%positive;
   IList.push_back h2 1%positive 4%positive) = Done demo_ABC.
Proof. vm_compute. reflexivity. Qed.

Lemma demo_AB_is_list : is_list demo_AB 1%positive [2%positive; 3%positive].
Proof.
  split; [by repeat split|]. apply (bool_decide_unpack _). vm_compute. exact I.
Qed.

Lemma demo_ABC_is_list :
  is_list demo_ABC 1%positive [2%positive; 3%positive; 4%positive].
Proof.
  split; [by repeat split|]. apply (bool_decide_unpack _). vm_compute. exact I.
Qed.

Lemma demo_AB_wf : wf demo_AB.
Proof. apply wfb_spec. vm_compute. reflexivity. Qed.


Lemma wf_not_half_linked h a : wf h → ¬ half_linked h a.
Proof.
  intros Hwf (nd & Ha & Hhalf).
  assert (alloc h a) as Hal by (by eexists).
  assert (rd h a Prev = Some (prev nd)) as Hp by (unfold rd; by rewrite Ha).
  assert (rd h a Next = Some (next nd)) as Hn by (unfold rd; by rewrite Ha).
  apply Hhalf. unfold nullptr.
  destruct (Hwf a Hal) as [[Hu1 Hu2]%unlinked_rd|(p & n & [_ H1] & [H2 _])].
  - unfold nullptr in *. split; congruence.
  - split; congruence.
Qed.

(** * The claims *)

(** C1 (the code departs from the claim).  On the list [A; B], the call
    [l.splice(l.end(), l, l.begin(), l.end())] has [pos == last], which is
    outside the range [[first, last)].  Erasing [A] and [B] and inserting
    each before [end()] gives the list [A; B] back, in either reading of the
    reference.  [splice] instead leaves [fake.prev == &fake]: [empty()]
    answers [true] and the backward traversal meets no element, although the
    forward traversal still meets [A] and [B]. *)
Theorem splice_at_last_differs_from_erase_insert :
  splice_to_end_observed demo_AB 1%positive
    = Done (demo_AB_spliced, true, [2%positive; 3%positive], []) ∧
  erase_insert_to_end_observed demo_AB 1%positive
    = Done (demo_AB, false, [2%positive; 3%positive], [3%positive; 2%positive]) ∧
  two_phase_to_end_observed demo_AB 1%positive
    = Done (demo_AB, false, [2%positive; 3%positive], [3%positive; 2%positive]).
Proof. split_and!; vm_compute; reflexivity. Qed.

(** C2 (the code departs from the claim).  The store [demo_AB] satisfies
    the node invariant.  After [l.splice(l.end(), l, l.begin(), l.end())]
    neither the sentinel nor [A] is in one of the two allowed states:
    [fake.prev == &fake] but [fake.next == &A], and [A.prev == &B] but
    [B.next == &fake]. *)
Theorem splice_at_last_breaks_node_invariant :
  wf demo_AB ∧
  IList.splice demo_AB 1%positive (IList.end_ 1%positive) 1%positive
    (mk_iter (Some 2%positive)) (IList.end_ 1%positive) = Done demo_AB_spliced ∧
  ¬ node_ok demo_AB_spliced 1%positive ∧
  ¬ node_ok demo_AB_spliced 2%positive ∧
  ¬ wf demo_AB_spliced.
Proof.
  split_and!.
  - apply demo_AB_wf.
  - vm_compute. reflexivity.
  - intros H%node_okb_spec. vm_compute in H. discriminate.
  - intros H%node_okb_spec. vm_compute in H. discriminate.
  - intros H%wfb_spec. vm_compute in H. discriminate.
Qed.

(** C5.  For a list and a position [x] in it other than [end()],
    [erase(x)] returns the iterator to the position after [x], leaves the
    list with its other elements in order, leaves [x] unlinked, and writes
    no member other than those of [x], the [next] of its predecessor and
    the [prev] of its successor.  In the scenario of the specification
    ([A], [B], [C] pushed with [push_back], then [B] erased) the returned
    iterator dereferences to [C], [front()] is [A], [back()] is [C],
    [empty()] is [false], and after erasing [A] and [C] [empty()] is
    [true]. *)
Theorem erase_returns_next_and_unlinks :
  (∀ (h : heap) (fake : addr) (xs : list addr) (x : addr) (ys : list addr),
     is_list h fake (xs ++ x :: ys) →
     ∃ h', IList.erase h fake (mk_iter (Some x))
             = Done (h', mk_iter (Some (hd fake ys))) ∧
           is_list h' fake (xs ++ ys) ∧
           unlinked h' x ∧
           (∀ a g, a ≠ x → (a, g) ≠ (end_of fake xs, Next) →
                   (a, g) ≠ (hd fake ys, Prev) → rd h' a g = rd h a g)) ∧
  (∀ (h : heap) (l A B C : addr),
     is_list h l [] → alloc h A → alloc h B → alloc h C → NoDup [l; A; B; C] →
     erase_scenario h l A B C = Done (C, A, C, false, true)).
Proof.
  split.
  - apply erase_unlinks_and_returns_next.
  - apply erase_scenario_result.
Qed.

(** C7.  [try_unlink] on a node whose two pointers are null returns the
    store unchanged.  This covers a node on which [unlink] has just
    completed, and a node that was constructed and never linked. *)
Theorem try_unlink_idempotent (h : heap) (a : addr) :
  (unlinked h a → Base.try_unlink h a = Done h) ∧
  (∀ h0, Base.unlink h0 a = Done h → Base.try_unlink h a = Done h) ∧
  Base.try_unlink (Element.ctor h a) a = Done (Element.ctor h a).
Proof.
  split_and!.
  - apply try_unlink_unlinked.
  - intros h0 H. apply try_unlink_unlinked. by eapply unlink_Done_unlinked.
  - apply try_unlink_unlinked, ctor_unlinked.
Qed.

(** C8.  In a debug build [unlink] fails an assertion exactly when [prev]
    or [next] of the node is null or points to the node itself.  For a node
    of a consistent ring of at least two nodes the four assertions hold and
    [unlink] completes: the two neighbours are linked to each other, the
    node's own pointers are null, the other nodes still form a ring, and no
    other member is written. *)
Theorem unlink_assertions_exact (h : heap) (this : addr) :
  (∀ nd, h !! this = Some nd →
     (Base.unlink h this = AssertFailed ↔
      prev nd = nullptr ∨ next nd = nullptr ∨
      prev nd = Some this ∨ next nd = Some this)) ∧
  (∀ n t, ring h (this :: n :: t) →
     rd h this Prev = Some (Some (end_of n t)) ∧
     rd h this Next = Some (Some n) ∧
     end_of n t ≠ this ∧ n ≠ this ∧
     Base.unlink h this = Done (unlink_heap h (end_of n t) this n) ∧
     links (unlink_heap h (end_of n t) this n) (end_of n t) n ∧
     unlinked (unlink_heap h (end_of n t) this n) this ∧
     ring (unlink_heap h (end_of n t) this n) (n :: t) ∧
     (∀ a g, a ≠ this → (a, g) ≠ (end_of n t, Next) → (a, g) ≠ (n, Prev) →
             rd (unlink_heap h (end_of n t) this n) a g = rd h a g)).
Proof.
  split.
  - intros nd Hnd. by apply unlink_assert_iff.
  - intros n t Hr. destruct (unlink_ring h this n t Hr) as (Hu & Hr' & Hun).
    pose proof Hr as [Hp Hnd].
    change ((n :: t) ++ [this]) with (n :: (t ++ [this])) in Hp.
    destruct Hp as [[Hn1 Hn2] Hp]. apply path_snoc in Hp as [_ [Hp1 Hp2]].
    apply NoDup_cons in Hnd as [Hthis _].
    assert (end_of n t ≠ this) as Hne1.
    { intros Heq. apply Hthis. rewrite <- Heq. apply end_of_elem. }
    assert (n ≠ this) as Hne2 by set_solver.
    split_and!; try done.
    + destruct Hr' as [Hp' _]. by apply path_snoc in Hp' as [_ ?].
    + intros a g Ha H1 H2.
      rewrite unlink_heap_rd; [|alloc_tac..|done|done].
      repeat case_decide; naive_solver.
Qed.

(** C10.  [list::splice] never looks at its [list&] argument (nor at the
    list it is called on): the result is determined by the store and the
    three iterators. *)
Theorem list_splice_ignores_other (h : heap) (this this' other other' : addr)
    (pos first last : list_iterator) :
  IList.splice h this pos other first last
  = IList.splice h this' pos other' first last.
Proof. reflexivity. Qed.

(** * Instances of the claims on the concrete stores *)

Ltac concrete_list :=
  split; [by repeat split | apply (bool_decide_unpack _); vm_compute; exact I].

Lemma destroy_linked_element_witness :
  is_list demo_ABC 1%positive ([2%positive] ++ 3%positive :: [4%positive]) ∧
  ∃ h', Element.destroy demo_ABC 3%positive = Done h' ∧
        is_list h' 1%positive [2%positive; 4%positive] ∧
        IList.begin h' 1%positive = Done (mk_iter (Some 2%positive)) ∧
        rd h' 2%positive Next = Some (Some 4%positive) ∧
        rd h' 4%positive Prev = Some (Some 2%positive) ∧
        h' !! 3%positive = None ∧
        (∀ a g, a ≠ 3%positive → (a, g) ≠ (2%positive, Next) →
                (a, g) ≠ (4%positive, Prev) → rd h' a g = rd demo_ABC a g).
Proof.
  assert (is_list demo_ABC 1%positive ([2%positive] ++ 3%positive :: [4%positive]))
    as H by concrete_list.
  split; [exact H|].
  exact (destroy_linked_element demo_ABC 1%positive [2%positive] 3%positive
           [4%positive] H).
Defined.

Lemma move_ctor_takes_over_witness :
  is_list demo_AB 1%positive [2%positive; 3%positive] ∧
  demo_AB !! 5%positive = None ∧
  ∃ h', IList.move_ctor demo_AB 5%positive 1%positive = Done h' ∧
        is_list h' 1%positive [] ∧
        is_list h' 5%positive [2%positive; 3%positive] ∧
        (∀ a, alloc h' a ↔ a = 5%positive ∨ alloc demo_AB a) ∧
        (∀ a g, a ∉ [5%positive; 1%positive; 2%positive; 3%positive] →
                rd h' a g = rd demo_AB a g) ∧
        (∀ i x, [2%positive; 3%positive] !! i = Some x →
           ∃ it, nth_iterator demo_AB 1%positive i = Done it ∧
                 nth_iterator h' 5%positive i = Done it ∧
                 Iter.star it = Done x).
Proof.
  assert (is_list demo_AB 1%positive [2%positive; 3%positive]) as H by concrete_list.
  assert (demo_AB !! 5%positive = None) as H' by reflexivity.
  split; [exact H|]. split; [exact H'|].
  exact (move_ctor_takes_over demo_AB 1%positive 5%positive
           [2%positive; 3%positive] H H').
Defined.

Lemma erase_returns_next_and_unlinks_witness :
  is_list demo_ABC 1%positive ([2%positive] ++ 3%positive :: [4%positive]) ∧
  (∃ h', IList.erase demo_ABC 1%positive (mk_iter (Some 3%positive))
           = Done (h', mk_iter (Some 4%positive)) ∧
         is_list h' 1%positive [2%positive; 4%positive] ∧
         unlinked h' 3%positive ∧
         (∀ a g, a ≠ 3%positive → (a, g) ≠ (2%positive, Next) →
                 (a, g) ≠ (4%positive, Prev) → rd h' a g = rd demo_ABC a g)) ∧
  erase_scenario demo_fresh 1%positive 2%positive 3%positive 4%positive
    = Done (4%positive, 2%positive, 4%positive, false, true).
Proof.
  assert (is_list demo_ABC 1%positive ([2%positive] ++ 3%positive :: [4%positive]))
    as H by concrete_list.
  assert (is_list demo_fresh 1%positive []) as H0 by concrete_list.
  assert (alloc demo_fresh 2%positive) as HA by (by vm_compute; eexists).
  assert (alloc demo_fresh 3%positive) as HB by (by vm_compute; eexists).
  assert (alloc demo_fresh 4%positive) as HC by (by vm_compute; eexists).
  assert (NoDup [1%positive; 2%positive; 3%positive; 4%positive]) as Hnd
    by (apply (bool_decide_unpack _); vm_compute; exact I).
  split; [exact H|]. split.
  - exact (proj1 erase_returns_next_and_unlinks demo_ABC 1%positive [2%positive]
             3%positive [4%positive] H).
  - exact (proj2 erase_returns_next_and_unlinks demo_fresh 1%positive 2%positive
             3%positive 4%positive H0 HA HB HC Hnd).
Defined.

Lemma clear_empties_and_unlinks_witness :
  is_list demo_AB 1%positive [2%positive; 3%positive] ∧
  length [2%positive; 3%positive] ≤ 2 ∧
  ∃ h', IList.clear 2 demo_AB 1%positive = Done h' ∧
        IList.empty h' 1%positive = Done true ∧
        (∀ x, x ∈ [2%positive; 3%positive] →
              unlinked h' x ∧ Base.try_unlink h' x = Done h').
Proof.
  assert (is_list demo_AB 1%positive [2%positive; 3%positive]) as H by concrete_list.
  assert (length [2%positive; 3%positive] ≤ 2) as H' by (simpl; lia).
  split; [exact H|]. split; [exact H'|].
  exact (clear_empties_and_unlinks 2 demo_AB 1%positive [2%positive; 3%positive] H H').
Defined.

Lemma try_unlink_idempotent_witness :
  unlinked demo_AB 4%positive ∧
  Base.try_unlink demo_AB 4%positive = Done demo_AB ∧
  Base.unlink demo_ABC 4%positive = Done demo_AB ∧
  Base.try_unlink demo_AB 4%positive = Done demo_AB.
Proof.
  assert (unlinked demo_AB 4%positive) as H by reflexivity.
  assert (Base.unlink demo_ABC 4%positive = Done demo_AB) as H'
    by (vm_compute; reflexivity).
  split; [exact H|]. split.
  - exact (proj1 (try_unlink_idempotent demo_AB 4%positive) H).
  - split; [exact H'|].
    exact (proj1 (proj2 (try_unlink_idempotent demo_AB 4%positive)) demo_ABC H').
Defined.

Lemma unlink_assertions_exact_witness :
  demo_AB !! 4%positive = Some (mk_base nullptr nullptr) ∧
  (Base.unlink demo_AB 4%positive = AssertFailed ↔
   nullptr = nullptr ∨ nullptr = nullptr ∨
   nullptr = Some 4%positive ∨ nullptr = Some 4%positive) ∧
  ring demo_ABC [3%positive; 4%positive; 1%positive; 2%positive] ∧
  Base.unlink demo_ABC 3%positive
    = Done (unlink_heap demo_ABC 2%positive 3%positive 4%positive) ∧
  ring (unlink_heap demo_ABC 2%positive 3%positive 4%positive)
    [4%positive; 1%positive; 2%positive].
Proof.
  assert (demo_AB !! 4%positive = Some (mk_base nullptr nullptr)) as H by reflexivity.
  assert (ring demo_ABC [3%positive; 4%positive; 1%positive; 2%positive]) as H'
    by concrete_list.
  pose proof (proj2 (unlink_assertions_exact demo_ABC 3%positive) 4%positive
                [1%positive; 2%positive] H') as (_ & _ & _ & _ & Hu & _ & _ & Hr & _).
  split; [exact H|]. split.
  - exact (proj1 (unlink_assertions_exact demo_AB 4%positive)
             (mk_base nullptr nullptr) H).
  - split; [exact H'|]. split; [exact Hu|exact Hr].
Defined.

Lemma move_assign_clears_first_witness :
  is_list demo_two 1%positive [2%positive; 3%positive] ∧
  length [2%positive; 3%positive] ≤ 2 ∧
  is_list demo_two 5%positive [4%positive] ∧
  (∃ h1 h', Base.clear 2 demo_two 1%positive = Done h1 ∧
            (∀ x, x ∈ [2%positive; 3%positive] → unlinked h1 x) ∧
            is_list h1 5%positive [4%positive] ∧
            IList.move_assign 2 demo_two 1%positive 5%positive = Done h' ∧
            (∀ x, x ∈ [2%positive; 3%positive] → unlinked h' x) ∧
            is_list h' 1%positive [4%positive] ∧ is_list h' 5%positive []) ∧
  (∃ h', IList.move_assign 2 demo_two 1%positive 1%positive = Done h' ∧
         is_list h' 1%positive [] ∧
         (∀ x, x ∈ [2%positive; 3%positive] → unlinked h' x)).
Proof.
  assert (is_list demo_two 1%positive [2%positive; 3%positive]) as H by concrete_list.
  assert (length [2%positive; 3%positive] ≤ 2) as H' by (simpl; lia).
  assert (is_list demo_two 5%positive [4%positive]) as Ho by concrete_list.
  assert (∀ a : addr, a ∈ [1%positive; 2%positive; 3%positive] →
            a ∉ [5%positive; 4%positive]) as Hd.
  { intros a Ha Hb. rewrite !elem_of_cons in Ha. rewrite !elem_of_cons in Hb.
    destruct Ha as [->|[->|[->|Ha]]], Hb as [Hb|[Hb|Hb]];
      first [discriminate Hb | by apply elem_of_nil in Hb | by apply elem_of_nil in Ha]. }
  split; [exact H|]. split; [exact H'|]. split; [exact Ho|]. split.
  - exact (proj1 (move_assign_clears_first 2 demo_two 1%positive
                    [2%positive; 3%positive] H H') 5%positive [4%positive] Ho Hd).
  - exact (proj2 (move_assign_clears_first 2 demo_two 1%positive
                    [2%positive; 3%positive] H H')).
Defined.

(** * Further properties of the code *)

(** ** Neighbours in a ring *)

Lemma ring_neighbours h l x :
  ring h l → x ∈ l →
  ∃ p n, p ∈ l ∧ n ∈ l ∧ links h p x ∧ links h x n.
Proof.
  destruct l as [|a t]; [done|]. intros Hr Hx.
  apply list_elem_of_split in Hx as (l1 & l2 & Heq).
  assert (ring h (x :: l2 ++ l1)) as Hr'.
  { destruct l1 as [|b l1']; simpl in Heq.
    - simplify_eq. by rewrite app_nil_r.
    - simplify_eq. by apply (is_list_rotate h b l1' x l2). }
  destruct Hr' as [Hp _].
  pose proof (path_head _ _ _ _ Hp) as Hn.
  apply path_snoc in Hp as [_ Hpr].
  exists (end_of x (l2 ++ l1)), (hd x (l2 ++ l1)). split_and!; try done.
  - pose proof (end_of_elem x (l2 ++ l1)) as He. rewrite Heq. set_solver.
  - rewrite Heq. destruct l2 as [|y l2']; simpl.
    + destruct l1 as [|y l1']; simpl; set_solver.
    + set_solver.
Qed.

Lemma unlinked_not_in_ring h l x : ring h l → unlinked h x → x ∉ l.
Proof.
  intros Hr [_ Hu]%unlinked_rd Hx.
  destruct (ring_neighbours h l x Hr Hx) as (p & n & _ & _ & _ & [Hn _]).
  unfold nullptr in *. congruence.
Qed.

Lemma unlinked_alloc h x : unlinked h x → alloc h x.
Proof. unfold unlinked, alloc. intros ->. by eexists. Qed.

(** ** Inserting and unlinking are inverse to each other *)

Lemma insert_unlink_roundtrip h p this obj :
  links h p this → unlinked h obj →
  unlink_heap (insert_heap h p this obj) p obj this = h.
Proof.
  intros [Hpn Htp] Hu. pose proof Hu as [Hu1 Hu2]%unlinked_rd.
  unfold nullptr in *.
  assert (obj ≠ this) as Hot by congruence.
  assert (obj ≠ p) as Hop by congruence.
  apply heap_ext. intros b g.
  rewrite unlink_heap_rd;
    [|apply insert_heap_alloc; first [alloc_tac | by apply unlinked_alloc]..|done|done].
  rewrite insert_heap_rd; [|first [alloc_tac | by apply unlinked_alloc]..|done|done].
  destruct g; repeat case_decide; destruct_and?; simplify_eq; try done; naive_solver.
Qed.

Lemma unlink_insert_roundtrip h p x n :
  links h p x → links h x n → p ≠ x →
  insert_heap (unlink_heap h p x n) p n x = h.
Proof.
  intros [Hpn Hxp] [Hxn Hnx] Hpx.
  assert (n ≠ x) as Hnx' by congruence.
  apply heap_ext. intros b g.
  rewrite insert_heap_rd; [|apply unlink_heap_alloc; alloc_tac..|done|done].
  rewrite unlink_heap_rd; [|alloc_tac..|done|done].
  destruct g; repeat case_decide; destruct_and?; simplify_eq; try done; naive_solver.
Qed.

(** X1.  [push_back] on a well-formed list with an unlinked element appends
    the element: it becomes the last element, [back()] returns it and the
    list is not empty.  A following [pop_back] restores the store exactly
    as it was before the [push_back]. *)
Theorem push_back_pop_back_roundtrip (h : heap) (l : addr) (xs : list addr)
    (obj : addr) :
  is_list h l xs → unlinked h obj →
  ∃ h1, IList.push_back h l obj = Done h1 ∧
        is_list h1 l (xs ++ [obj]) ∧
        IList.back h1 l = Done obj ∧
        IList.empty h1 l = Done false ∧
        IList.pop_back h1 l = Done h.
Proof.
  intros Hl Hu.
  assert (obj ∉ l :: xs) as Hnin by (by apply (unlinked_not_in_ring h (l :: xs))).
  destruct (insert_is_list h l xs [] obj) as [H1 H2];
    [by rewrite app_nil_r|by apply unlinked_alloc|by rewrite app_nil_r|].
  simpl in H1, H2.
  pose proof Hl as [[_ Hpl]%path_snoc _].
  exists (insert_heap h (end_of l xs) l obj). split_and!.
  - exact H1.
  - exact H2.
  - by apply (is_list_back _ _ xs obj).
  - rewrite (is_list_empty _ _ _ H2). f_equal. apply bool_decide_eq_false.
    by intros []%app_nil.
  - destruct (pop_back_is_list _ _ _ _ H2) as (h2 & E & _).
    rewrite E. f_equal.
    destruct (unlink_is_list _ l xs obj [] H2) as (_ & _ & _ & _ & Hun & _).
    pose proof H2 as [[_ [_ Hb]]%path_snoc _]. rewrite end_of_snoc in Hb.
    unfold IList.pop_back in E. rewrite (load_rd _ _ _ _ Hb) in E. simpl in E.
    rewrite Hun in E. simplify_eq. simpl.
    by apply insert_unlink_roundtrip.
Qed.

(** X2.  [push_front] on a well-formed list with an unlinked element puts
    the element first: [front()] returns it, [begin()] points at it.  A
    following [pop_front] restores the store exactly. *)
Theorem push_front_pop_front_roundtrip (h : heap) (l : addr) (xs : list addr)
    (obj : addr) :
  is_list h l xs → unlinked h obj →
  ∃ h1, IList.push_front h l obj = Done h1 ∧
        is_list h1 l (obj :: xs) ∧
        IList.front h1 l = Done obj ∧
        IList.begin h1 l = Done (mk_iter (Some obj)) ∧
        IList.pop_front h1 l = Done h.
Proof.
  intros Hl Hu.
  assert (obj ∉ l :: xs) as Hnin by (by apply (unlinked_not_in_ring h (l :: xs))).
  destruct (insert_is_list h l [] xs obj Hl (unlinked_alloc _ _ Hu) Hnin) as [H1 H2].
  simpl in H1, H2.
  pose proof Hl as [Hhead%path_head _].
  exists (insert_heap h l (hd l xs) obj). split_and!.
  - destruct Hhead as [Hn _]. unfold IList.push_front, to_base. repeat step. exact H1.
  - exact H2.
  - by apply (is_list_front _ _ obj xs).
  - by rewrite (is_list_begin _ _ _ H2).
  - destruct (unlink_is_list _ l [] obj xs H2) as (_ & _ & _ & _ & Hun & _).
    simpl in Hun. destruct H2 as [[[Hn _] _] _].
    unfold IList.pop_front. repeat step. rewrite Hun. f_equal.
    by apply insert_unlink_roundtrip.
Qed.
(** X3.  [insert(pos, obj)] with an unlinked element on a well-formed list
    returns an iterator that dereferences to the element and whose
    successor is [pos]; the element sits immediately before [pos].  Erasing
    the returned iterator gives [pos] back and restores the store exactly. *)
Theorem insert_erase_roundtrip (h : heap) (l : addr) (xs ys : list addr)
    (obj : addr) :
  is_list h l (xs ++ ys) → unlinked h obj →
  ∃ h1 it, IList.insert h l (mk_iter (Some (hd l ys))) obj = Done (h1, it) ∧
           Iter.star it = Done obj ∧
           Iter.incr h1 it = Done (mk_iter (Some (hd l ys))) ∧
           is_list h1 l (xs ++ obj :: ys) ∧
           IList.erase h1 l it = Done (h, mk_iter (Some (hd l ys))).
Proof.
  intros Hl Hu.
  assert (obj ∉ l :: xs ++ ys) as Hnin
    by (by apply (unlinked_not_in_ring h (l :: xs ++ ys))).
  destruct (insert_is_list h l xs ys obj Hl (unlinked_alloc _ _ Hu) Hnin) as [H1 H2].
  destruct (unlink_is_list _ l xs obj ys H2) as (_ & [Hon _] & _ & _ & Hun & _).
  pose proof Hl as [Hp _]. rewrite <- app_assoc in Hp.
  apply path_app in Hp as [_ Hpl%path_head].
  exists (insert_heap h (end_of l xs) (hd l ys) obj), (mk_iter (Some obj)).
  split_and!.
  - unfold IList.insert, to_base. simpl. by rewrite H1.
  - done.
  - unfold Iter.incr. simpl. by step.
  - exact H2.
  - unfold IList.erase. simpl. step. rewrite Hun. simpl. do 2 f_equal.
    by apply insert_unlink_roundtrip.
Qed.

(** X4.  Erasing an element of a well-formed list and inserting it again
    before the iterator that [erase] returned restores the store exactly. *)
Theorem erase_insert_roundtrip (h : heap) (l : addr) (xs : list addr) (x : addr)
    (ys : list addr) :
  is_list h l (xs ++ x :: ys) →
  ∃ h1 it, IList.erase h l (mk_iter (Some x)) = Done (h1, it) ∧
           is_list h1 l (xs ++ ys) ∧
           IList.insert h1 l it x = Done (h, mk_iter (Some x)).
Proof.
  intros Hl.
  destruct (unlink_is_list _ _ _ _ _ Hl) as (Hpx & Hxn & Hne1 & Hne2 & Hu & Hl' & Hx).
  exists (unlink_heap h (end_of l xs) x (hd l ys)), (mk_iter (Some (hd l ys))).
  split_and!.
  - unfold IList.erase. simpl. destruct Hxn as [Hxn _]. step. by rewrite Hu.
  - exact Hl'.
  - assert (x ∉ l :: xs ++ ys) as Hnin
      by (by apply (unlinked_not_in_ring (unlink_heap h (end_of l xs) x (hd l ys))
                      (l :: xs ++ ys))).
    destruct (insert_is_list _ l xs ys x Hl' (unlinked_alloc _ _ Hx) Hnin) as [H1 _].
    unfold IList.insert, to_base. simpl. rewrite H1. simpl. do 2 f_equal.
    by apply unlink_insert_roundtrip.
Qed.

(** X5.  On an empty list [pop_back], [pop_front] and [erase(end())] all
    reach [unlink] on the sentinel, whose [prev] points to itself: the
    assertion [prev != this] fails. *)
Theorem pop_on_empty_list_fails_assertion (h : heap) (l : addr) :
  is_list h l [] →
  IList.pop_back h l = AssertFailed ∧
  IList.pop_front h l = AssertFailed ∧
  IList.erase h l (IList.end_ l) = AssertFailed.
Proof.
  intros [[[Hn Hp] _] _].
  assert (Base.unlink h l = AssertFailed) as Hu.
  { destruct (rd_alloc _ _ _ _ Hp) as [nd Hnd].
    apply (unlink_assert_iff h l nd Hnd). right. right. left.
    unfold rd in Hp. rewrite Hnd in Hp. simpl in Hp. congruence. }
  split_and!.
  - unfold IList.pop_back. repeat step. exact Hu.
  - unfold IList.pop_front. repeat step. exact Hu.
  - unfold IList.erase, IList.end_. simpl. step. by rewrite Hu.
Qed.

(** X6.  On a non-empty list [erase(end())] is not detected: all four
    assertions of [unlink] hold for the sentinel, which is unlinked like an
    element.  The elements are left in a ring without a sentinel, and the
    list object reports a null [begin()]. *)
Theorem erase_end_unlinks_sentinel (h : heap) (l x : addr) (xs : list addr) :
  is_list h l (x :: xs) →
  ∃ h', IList.erase h l (IList.end_ l) = Done (h', mk_iter (Some x)) ∧
        unlinked h' l ∧
        ring h' (x :: xs) ∧
        IList.begin h' l = Done (mk_iter nullptr).
Proof.
  intros Hl. destruct (unlink_ring h l x xs Hl) as (Hu & Hr & Hun).
  exists (unlink_heap h (end_of x xs) l x). split_and!; try done.
  - destruct Hl as [[[Hn _] _] _].
    unfold IList.erase, IList.end_. simpl. step. by rewrite Hu.
  - apply unlinked_rd in Hun as [_ Hn]. unfold IList.begin. by step.
Qed.
(** X7.  On a well-formed list holding [xs], the forward traversal from
    [begin()] to [end()] visits exactly [xs] in order, the backward
    traversal from the node before [end()] visits [xs] in reverse order, no
    element is visited twice, and [empty()] tells whether [xs] is empty. *)
Theorem traversals_visit_the_elements (fuel : nat) (h : heap) (l : addr)
    (xs : list addr) :
  is_list h l xs → length xs ≤ fuel →
  contents fuel h l = Done xs ∧
  contents_rev fuel h l = Done (reverse xs) ∧
  NoDup xs ∧
  IList.empty h l = Done (bool_decide (xs = [])).
Proof.
  intros Hl Hfuel. destruct (is_list_contents fuel h l xs Hl Hfuel) as [H1 H2].
  split_and!; try done.
  - destruct Hl as [_ [_ Hnd]%NoDup_cons]. exact Hnd.
  - by apply is_list_empty.
Qed.

(** X8.  In a store that satisfies the node invariant, [++] and [--] are
    inverse to each other at every linked node: [--(++it) == it] and
    [++(--it) == it]. *)
Theorem incr_decr_inverse (h : heap) (a : addr) :
  wf h → alloc h a → ¬ unlinked h a →
  ∃ nx pv, Iter.incr h (mk_iter (Some a)) = Done nx ∧
           Iter.decr h nx = Done (mk_iter (Some a)) ∧
           Iter.decr h (mk_iter (Some a)) = Done pv ∧
           Iter.incr h pv = Done (mk_iter (Some a)).
Proof.
  intros Hwf Ha Hlinked.
  destruct (Hwf a Ha) as [Hu|(p & n & [Hpn Hap] & [Han Hna])]; [done|].
  exists (mk_iter (Some n)), (mk_iter (Some p)).
  unfold Iter.incr, Iter.decr. simpl. split_and!; by repeat step.
Qed.

(** X9.  A ring is closed under [++]: stepping [i + 1] times from a node
    reaches the [i]-th node after it, and stepping once for every node of
    the ring leads back to the start.  In particular [++end()] wraps to the
    first element and the traversal of a list never leaves its ring. *)
Theorem advance_around_ring (h : heap) (a : addr) (t : list addr) :
  ring h (a :: t) →
  advance h (S (length t)) (mk_iter (Some a)) = Done (mk_iter (Some a)) ∧
  (∀ i x, t !! i = Some x →
     advance h (S i) (mk_iter (Some a)) = Done (mk_iter (Some x))).
Proof.
  intros [Hp _]. split.
  - apply (advance_path h a (t ++ [a]) (length t) a Hp).
    rewrite lookup_app_r by lia. by rewrite Nat.sub_diag.
  - intros i x Hi. apply (advance_path h a (t ++ [a]) i x Hp).
    by apply lookup_app_l_Some.
Qed.
(** ** [splice] on rings *)

Lemma splice_two_rings h pos A last B first rs :
  ring h (pos :: A) → ring h (last :: B ++ first :: rs) →
  (∀ x, x ∈ pos :: A → x ∉ last :: B ++ first :: rs) →
  Base.splice h pos first last
    = Done (splice_heap h (end_of pos A) (end_of last B) (end_of first rs)
              pos first last) ∧
  ring (splice_heap h (end_of pos A) (end_of last B) (end_of first rs)
          pos first last) (pos :: A ++ first :: rs) ∧
  ring (splice_heap h (end_of pos A) (end_of last B) (end_of first rs)
          pos first last) (last :: B) ∧
  (∀ b g, b ∉ (pos :: A) ++ (last :: B ++ first :: rs) →
     rd (splice_heap h (end_of pos A) (end_of last B) (end_of first rs)
           pos first last) b g = rd h b g).
Proof.
  set (P := end_of pos A). set (F := end_of last B). set (L := end_of first rs).
  intros [HpA HndA] [HpB HndB] Hdisj.
  apply path_snoc in HpA as [HpA HP]. fold P in HP.
  rewrite <- app_assoc in HpB. apply path_app in HpB as [HpB Hrest]. fold F in Hrest.
  simpl in Hrest. destruct Hrest as [HF Hrs]. apply path_snoc in Hrs as [Hrs HL].
  fold L in HL.
  assert (P ∈ pos :: A) as HPin by apply end_of_elem.
  assert (F ∈ last :: B) as HFin by apply end_of_elem.
  assert (L ∈ first :: rs) as HLin by apply end_of_elem.
  change (last :: B ++ first :: rs) with ((last :: B) ++ (first :: rs)) in HndB, Hdisj.
  pose proof HndB as (HndlB & HBrs & Hndrs)%NoDup_app.
  assert (pos ∉ first :: rs) as Hposrs.
  { intros Hin. apply (Hdisj pos); set_solver. }
  assert (last ∉ first :: rs) as Hlastrs by (apply HBrs; set_solver).
  assert (pos ≠ last) as Hpl.
  { intros ->. apply (Hdisj last); set_solver. }
  destruct (splice_path h P pos F first rs last) as (E & Hpath & Hlink & Fr); try done.
  fold L in E, Hpath, Hlink, Fr.
  split; [exact E|]. split; [|split].
  - split.
    + rewrite <- app_assoc. apply path_app. fold P. split; [|exact Hpath].
      revert HpA. apply path_frame.
      * intros y Hy. apply Fr; [|done]. intros _.
        assert (y ≠ P) by (intros ->; by apply (end_of_not_front pos A)).
        apply front_of_elem in Hy.
        assert (y ∉ (last :: B) ++ (first :: rs)) by (by apply Hdisj).
        set_solver.
      * intros y Hy. apply Fr; [done|]. intros _.
        assert (y ≠ pos) by (apply NoDup_cons in HndA as [? _]; set_solver).
        assert (y ∉ (last :: B) ++ (first :: rs)) by (apply Hdisj; set_solver).
        set_solver.
    + change (pos :: A ++ first :: rs) with ((pos :: A) ++ (first :: rs)).
      apply NoDup_app. split_and!; [done| |done].
      intros y Hy Hy'. apply (Hdisj y Hy). set_solver.
  - split; [|done]. apply path_snoc. fold F. split; [|exact Hlink].
    revert HpB. apply path_frame.
    * intros y Hy. apply Fr; [|done]. intros _.
      assert (y ≠ F) by (intros ->; by apply (end_of_not_front last B)).
      apply front_of_elem in Hy.
      assert (y ≠ P) by (intros ->; apply (Hdisj P HPin); set_solver).
      assert (y ≠ L) by (intros ->; by apply (HBrs L)).
      set_solver.
    * intros y Hy. apply Fr; [done|]. intros _.
      assert (y ≠ last) by (apply NoDup_cons in HndlB as [? _]; set_solver).
      assert (y ≠ pos) by (intros ->; apply (Hdisj pos); set_solver).
      assert (y ≠ first) by (intros ->; apply (HBrs first); set_solver).
      set_solver.
  - intros b g Hb. apply Fr; intros _; set_solver.
Qed.

Lemma splice_same_ring h pos A first rs last B :
  ring h (pos :: A ++ first :: rs ++ last :: B) →
  Base.splice h pos first last
    = Done (splice_heap h (end_of last B) (end_of pos A) (end_of first rs)
              pos first last) ∧
  ring (splice_heap h (end_of last B) (end_of pos A) (end_of first rs)
          pos first last) (pos :: A ++ last :: B ++ first :: rs) ∧
  (∀ b g, b ∉ pos :: A ++ first :: rs ++ last :: B →
     rd (splice_heap h (end_of last B) (end_of pos A) (end_of first rs)
           pos first last) b g = rd h b g).
Proof.
  set (P := end_of last B). set (F := end_of pos A). set (L := end_of first rs).
  intros [Hp Hnd].
  rewrite <- app_assoc in Hp. apply path_app in Hp as [HpA Hp]. fold F in Hp.
  simpl in Hp. destruct Hp as [HF Hp].
  rewrite <- app_assoc in Hp. apply path_app in Hp as [Hrs Hp]. fold L in Hp.
  simpl in Hp. destruct Hp as [HL Hp]. apply path_snoc in Hp as [HpB HP]. fold P in HP.
  assert (P ∈ last :: B) as HPin by apply end_of_elem.
  assert (F ∈ pos :: A) as HFin by apply end_of_elem.
  assert (L ∈ first :: rs) as HLin by apply end_of_elem.
  change (pos :: A ++ first :: rs ++ last :: B)
    with ((pos :: A) ++ (first :: rs) ++ (last :: B)) in Hnd.
  pose proof Hnd as (HndA & HA & Hnd')%NoDup_app.
  pose proof Hnd' as (Hndrs & Hrs' & HndB)%NoDup_app.
  assert (pos ∉ first :: rs) as Hposrs by (intros Hin; apply (HA pos); set_solver).
  assert (last ∉ first :: rs) as Hlastrs by (intros Hin; apply (Hrs' last); set_solver).
  assert (pos ≠ last) as Hpl by (intros ->; apply (HA last); set_solver).
  destruct (splice_path h P pos F first rs last) as (E & Hpath & Hlink & Fr); try done.
  fold L in E, Hpath, Hlink, Fr.
  split; [exact E|]. split.
  - split.
    + rewrite <- app_assoc. apply path_app. fold F. split.
      * revert HpA. apply path_frame.
        -- intros y Hy. apply Fr; [|done]. intros _.
           assert (y ≠ F) by (intros ->; by apply (end_of_not_front pos A)).
           apply front_of_elem in Hy.
           assert (y ≠ P) by (intros ->; apply (HA P); set_solver).
           assert (y ≠ L) by (intros ->; apply (HA L); set_solver).
           set_solver.
        -- intros y Hy. apply Fr; [done|]. intros _.
           assert (y ≠ pos) by (apply NoDup_cons in HndA as [? _]; set_solver).
           assert (y ≠ last) by (intros ->; apply (HA last); set_solver).
           assert (y ≠ first) by (intros ->; apply (HA first); set_solver).
           set_solver.
      * simpl. split; [exact Hlink|].
        rewrite <- app_assoc. apply path_app. fold P. split; [|exact Hpath].
        revert HpB. apply path_frame.
        -- intros y Hy. apply Fr; [|done]. intros _.
           assert (y ≠ P) by (intros ->; by apply (end_of_not_front last B)).
           apply front_of_elem in Hy.
           assert (y ≠ F) by (intros ->; apply (HA F); set_solver).
           assert (y ≠ L) by (intros ->; apply (Hrs' L); set_solver).
           set_solver.
        -- intros y Hy. apply Fr; [done|]. intros _.
           assert (y ≠ last) by (apply NoDup_cons in HndB as [? _]; set_solver).
           assert (y ≠ pos) by (intros ->; apply (HA pos); set_solver).
           assert (y ≠ first) by (intros ->; apply (Hrs' first); set_solver).
           set_solver.
    + revert Hnd. apply NoDup_Permutation_proper.
      change (pos :: A ++ last :: B ++ first :: rs)
        with ((pos :: A) ++ (last :: B) ++ (first :: rs)).
      apply Permutation_app_head. apply Permutation_app_comm.
  - intros b g Hb. apply Fr; intros _; set_solver.
Qed.
Lemma two_rings_range h pos A last B first rs :
  ring h (pos :: A) → ring h (last :: B ++ first :: rs) →
  (∀ x, x ∈ pos :: A → x ∉ last :: B ++ first :: rs) →
  links h (end_of pos A) pos ∧ links h (end_of last B) first ∧
  path h first rs ∧ links h (end_of first rs) last ∧
  NoDup (first :: rs) ∧ (pos ∉ first :: rs) ∧ (last ∉ first :: rs) ∧ pos ≠ last.
Proof.
  intros [HpA HndA] [HpB HndB] Hdisj.
  apply path_snoc in HpA as [HpA HP].
  rewrite <- app_assoc in HpB. apply path_app in HpB as [HpB Hrest].
  simpl in Hrest. destruct Hrest as [HF Hrs]. apply path_snoc in Hrs as [Hrs HL].
  change (last :: B ++ first :: rs) with ((last :: B) ++ (first :: rs)) in HndB, Hdisj.
  pose proof HndB as (HndlB & HBrs & Hndrs)%NoDup_app.
  split_and!; try done.
  - intros Hin. apply (Hdisj pos); set_solver.
  - apply HBrs. set_solver.
  - intros ->. apply (Hdisj last); set_solver.
Qed.

Lemma same_ring_range h pos A first rs last B :
  ring h (pos :: A ++ first :: rs ++ last :: B) →
  links h (end_of last B) pos ∧ links h (end_of pos A) first ∧
  path h first rs ∧ links h (end_of first rs) last ∧
  NoDup (first :: rs) ∧ (pos ∉ first :: rs) ∧ (last ∉ first :: rs) ∧ pos ≠ last.
Proof.
  intros [Hp Hnd].
  rewrite <- app_assoc in Hp. apply path_app in Hp as [HpA Hp].
  simpl in Hp. destruct Hp as [HF Hp].
  rewrite <- app_assoc in Hp. apply path_app in Hp as [Hrs Hp].
  simpl in Hp. destruct Hp as [HL Hp]. apply path_snoc in Hp as [HpB HP].
  change (pos :: A ++ first :: rs ++ last :: B)
    with ((pos :: A) ++ (first :: rs) ++ (last :: B)) in Hnd.
  pose proof Hnd as (HndA & HA & Hnd')%NoDup_app.
  pose proof Hnd' as (Hndrs & Hrs' & HndB)%NoDup_app.
  split_and!; try done.
  - intros Hin. apply (HA pos); set_solver.
  - intros Hin. apply (Hrs' last); set_solver.
  - intros ->. apply (HA last); set_solver.
Qed.

Lemma is_list_ring_at h l xs ys :
  is_list h l (xs ++ ys) ↔ ring h (hd l ys :: tail (ys ++ [l]) ++ xs).
Proof.
  destruct ys as [|y ys']; simpl.
  - by rewrite app_nil_r.
  - rewrite <- app_assoc. simpl. apply is_list_rotate.
Qed.

(** X10.  For two different well-formed lists [X] and [Y], a non-empty
    range [first :: rs] of [X] and a position of [Y], [splice] moves the
    range out of [X] and puts it, in the same order, immediately before the
    position in [Y]; both lists stay well formed, and no node outside the
    two lists is written.  The resulting store is the one that erasing each
    element of the range from [X] and inserting it before the position
    produces. *)
Theorem splice_between_lists (fuel : nat) (h : heap) (X Y : addr)
    (xs1 : list addr) (first : addr) (rs xs2 ys1 ys2 : list addr) :
  is_list h X (xs1 ++ (first :: rs) ++ xs2) → is_list h Y (ys1 ++ ys2) →
  (∀ a, a ∈ Y :: ys1 ++ ys2 → a ∉ X :: xs1 ++ (first :: rs) ++ xs2) →
  length (first :: rs) ≤ fuel →
  ∃ h', IList.splice h Y (mk_iter (Some (hd Y ys2))) X (mk_iter (Some first))
          (mk_iter (Some (hd X xs2))) = Done h' ∧
        is_list h' X (xs1 ++ xs2) ∧
        is_list h' Y (ys1 ++ (first :: rs) ++ ys2) ∧
        splice_reference fuel h X Y (mk_iter (Some (hd Y ys2)))
          (mk_iter (Some first)) (mk_iter (Some (hd X xs2))) = Done h' ∧
        (∀ b g, b ∉ (Y :: ys1 ++ ys2) ++ (X :: xs1 ++ (first :: rs) ++ xs2) →
                rd h' b g = rd h b g).
Proof.
  intros HX HY Hdisj Hfuel.
  set (pos := hd Y ys2). set (last := hd X xs2).
  set (A := tail (ys2 ++ [Y]) ++ ys1). set (B := tail (xs2 ++ [X]) ++ xs1).
  apply is_list_ring_at in HY. fold pos A in HY.
  rewrite app_assoc in HX. apply is_list_ring_at in HX. fold last in HX.
  rewrite app_assoc in HX. fold B in HX.
  assert (∀ a, a ∈ pos :: A ↔ a ∈ Y :: ys1 ++ ys2) as HYelem.
  { intros a. unfold pos, A. destruct ys2 as [|y ys2']; simpl; set_solver. }
  assert (∀ a, a ∈ last :: B ++ first :: rs ↔ a ∈ X :: xs1 ++ (first :: rs) ++ xs2)
    as HXelem.
  { intros a. unfold last, B. destruct xs2 as [|x xs2']; simpl; set_solver. }
  assert (∀ x, x ∈ pos :: A → x ∉ last :: B ++ first :: rs) as Hdisj'.
  { intros x Hx. rewrite HXelem. apply Hdisj. by apply HYelem. }
  destruct (splice_two_rings h pos A last B first rs HY HX Hdisj')
    as (E & HY' & HX' & Fr).
  destruct (two_rings_range h pos A last B first rs HY HX Hdisj')
    as (HP & HF & Hrs & HL & Hnd & Hpos & Hlast & Hpl).
  destruct (splice_refines_reference fuel h X Y _ _ pos first rs last
              HP HF Hrs HL Hnd Hpos Hlast Hpl Hfuel) as [_ Href].
  eexists. split_and!.
  - unfold IList.splice. simpl. exact E.
  - apply is_list_ring_at. exact HX'.
  - rewrite app_assoc. apply is_list_ring_at. fold pos.
    unfold A in HY'. by rewrite <- app_assoc in HY'.
  - exact Href.
  - intros b g Hb. apply Fr. rewrite elem_of_app, HYelem, HXelem.
    by rewrite <- elem_of_app.
Qed.

(** X11.  Within one ring, for a position [pos] outside the closed range
    from [first] to [last], [splice] moves the range [first :: rs]
    immediately before [pos]: the cyclic order [pos, A, first :: rs, last,
    B] becomes [pos, A, last, B, first :: rs].  No node outside the ring is
    written, and the store is the one that the element-wise erase and
    insert produces. *)
Theorem splice_within_ring (fuel : nat) (h : heap) (X Y : addr) (pos : addr)
    (A : list addr) (first : addr) (rs : list addr) (last : addr) (B : list addr) :
  ring h (pos :: A ++ first :: rs ++ last :: B) →
  length (first :: rs) ≤ fuel →
  ∃ h', IList.splice h Y (mk_iter (Some pos)) X (mk_iter (Some first))
          (mk_iter (Some last)) = Done h' ∧
        ring h' (pos :: A ++ last :: B ++ first :: rs) ∧
        splice_reference fuel h X Y (mk_iter (Some pos)) (mk_iter (Some first))
          (mk_iter (Some last)) = Done h' ∧
        (∀ b g, b ∉ pos :: A ++ first :: rs ++ last :: B → rd h' b g = rd h b g).
Proof.
  intros Hr Hfuel.
  destruct (splice_same_ring h pos A first rs last B Hr) as (E & Hr' & Fr).
  destruct (same_ring_range h pos A first rs last B Hr)
    as (HP & HF & Hrs & HL & Hnd & Hpos & Hlast & Hpl).
  destruct (splice_refines_reference fuel h X Y _ _ pos first rs last
              HP HF Hrs HL Hnd Hpos Hlast Hpl Hfuel) as [_ Href].
  eexists. split_and!; [|exact Hr'|exact Href|exact Fr].
  unfold IList.splice. simpl. exact E.
Qed.
Lemma hd_tail_snoc (l : addr) (c : list addr) : hd l c :: tail (c ++ [l]) = c ++ [l].
Proof. by destruct c. Qed.

Ltac norm_app_in H := repeat (progress (cbn [app] in H; rewrite <- ?app_assoc in H)).
Ltac norm_app := repeat (progress (cbn [app]; rewrite <- ?app_assoc)).

(** X12.  Within one well-formed list, [splice] moves a range forward: for
    the list [a ++ first :: rs ++ last :: b ++ c] and the position at the
    head of [c] (or [end()] when [c] is empty), the list becomes
    [a ++ last :: b ++ first :: rs ++ c]. *)
Theorem splice_forward_in_list (h : heap) (l : addr) (a : list addr)
    (first : addr) (rs : list addr) (last : addr) (b c : list addr) :
  is_list h l (a ++ (first :: rs) ++ (last :: b) ++ c) →
  ∃ h', IList.splice h l (mk_iter (Some (hd l c))) l (mk_iter (Some first))
          (mk_iter (Some last)) = Done h' ∧
        is_list h' l (a ++ (last :: b) ++ (first :: rs) ++ c).
Proof.
  intros Hl.
  assert (ring h (hd l c :: (tail (c ++ [l]) ++ a) ++ first :: rs ++ last :: b)) as Hr.
  { rewrite <- app_assoc.
    apply (proj1 (is_list_ring_at h l (a ++ first :: rs ++ last :: b) c)).
    norm_app. norm_app_in Hl. exact Hl. }
  destruct (splice_same_ring h _ _ first rs last b Hr) as (E & Hr' & _).
  eexists. split.
  - unfold IList.splice. simpl. exact E.
  - rewrite <- app_assoc in Hr'.
    apply (proj2 (is_list_ring_at _ l (a ++ last :: b ++ first :: rs) c)) in Hr'.
    norm_app. norm_app_in Hr'. exact Hr'.
Qed.

(** X13.  Within one well-formed list, [splice] moves a range backward: for
    the list [a ++ pos :: b ++ first :: rs ++ c], the range up to the head
    of [c] (or [end()]) and the position [pos], the list becomes
    [a ++ first :: rs ++ pos :: b ++ c]. *)
Theorem splice_backward_in_list (h : heap) (l : addr) (a : list addr)
    (pos : addr) (b : list addr) (first : addr) (rs c : list addr) :
  is_list h l (a ++ (pos :: b) ++ (first :: rs) ++ c) →
  ∃ h', IList.splice h l (mk_iter (Some pos)) l (mk_iter (Some first))
          (mk_iter (Some (hd l c))) = Done h' ∧
        is_list h' l (a ++ (first :: rs) ++ (pos :: b) ++ c).
Proof.
  intros Hl.
  assert (ring h (pos :: b ++ first :: rs ++ hd l c :: tail (c ++ [l]) ++ a)) as Hr.
  { change (hd l c :: tail (c ++ [l]) ++ a) with ((hd l c :: tail (c ++ [l])) ++ a).
    rewrite hd_tail_snoc.
    cbn [app] in Hl. apply is_list_rotate in Hl.
    norm_app. norm_app_in Hl. exact Hl. }
  destruct (splice_same_ring h pos b first rs (hd l c) _ Hr) as (E & Hr' & _).
  eexists. split.
  - unfold IList.splice. simpl. exact E.
  - assert (pos :: b ++ hd l c :: (tail (c ++ [l]) ++ a) ++ first :: rs
            = pos :: (b ++ c) ++ l :: (a ++ first :: rs)) as Heq.
    { change (hd l c :: (tail (c ++ [l]) ++ a) ++ first :: rs)
        with ((hd l c :: tail (c ++ [l])) ++ a ++ first :: rs)
        || idtac.
      rewrite (app_comm_cons (tail (c ++ [l]) ++ a)).
      rewrite (app_comm_cons (tail (c ++ [l]))).
      rewrite hd_tail_snoc. by norm_app. }
    rewrite Heq in Hr'.
    apply (proj2 (is_list_rotate _ l (a ++ first :: rs) pos (b ++ c))) in Hr'.
    norm_app. norm_app_in Hr'. exact Hr'.
Qed.
(** ** The node invariant, operation by operation *)

(** X14.  In a store that satisfies the node invariant, [unlink] on a linked
    node that is not a ring of its own completes; [try_unlink] does the
    same; the invariant holds afterwards and the node is unlinked. *)
Theorem unlink_keeps_node_invariant (h : heap) (a : addr) :
  wf h → alloc h a → ¬ unlinked h a → ¬ links h a a →
  ∃ h', Base.unlink h a = Done h' ∧
        Base.try_unlink h a = Done h' ∧
        wf h' ∧ unlinked h' a.
Proof.
  intros Hwf Ha Hlinked Hself.
  destruct (Hwf a Ha) as [Hu|(p & n & Hp & Hn)]; [done|].
  assert (p ≠ a) as Hpa by (intros ->; done).
  assert (n ≠ a) as Hna by (intros ->; done).
  exists (unlink_heap h p a n). split_and!.
  - by apply unlink_spec.
  - rewrite (try_unlink_linked h p a); [by apply unlink_spec|apply Hp|].
    exists n. apply Hn.
  - by apply wf_unlink.
  - apply unlinked_rd.
    rewrite !unlink_heap_rd by first [alloc_tac | done].
    by rewrite !decide_True.
Qed.

(** X15.  In a store that satisfies the node invariant, [insert] of an
    unlinked node before a linked node completes and keeps the invariant;
    the new node sits between the former predecessor and [this]. *)
Theorem insert_keeps_node_invariant (h : heap) (this obj : addr) :
  wf h → alloc h this → ¬ unlinked h this → unlinked h obj →
  ∃ h' p, Base.insert h this obj = Done h' ∧
          wf h' ∧
          links h p this ∧ links h' p obj ∧ links h' obj this.
Proof.
  intros Hwf Ha Hlinked Hu.
  destruct (Hwf this Ha) as [Hu'|(p & n & Hp & Hn)]; [done|].
  pose proof Hu as [Hu1 Hu2]%unlinked_rd. unfold nullptr in *.
  assert (obj ≠ this) as Hot by (destruct Hp; congruence).
  assert (obj ≠ p) as Hop by (destruct Hp; congruence).
  exists (insert_heap h p this obj), p. split_and!.
  - apply insert_spec; [apply Hp|alloc_tac|by apply unlinked_alloc].
  - by apply wf_insert.
  - done.
  - unfold links.
    rewrite !insert_heap_rd by first [alloc_tac | by apply unlinked_alloc | done].
    split; repeat case_decide; naive_solver.
  - unfold links.
    rewrite !insert_heap_rd by first [alloc_tac | by apply unlinked_alloc | done].
    split; repeat case_decide; naive_solver.
Qed.

(** X16.  In a store that satisfies the node invariant, [splice] with three
    linked nodes completes and keeps the invariant whenever the range is
    empty ([first == last]) or [pos] differs from both [first] and
    [last]. *)
Theorem splice_keeps_node_invariant (h : heap) (pos first last : addr) :
  wf h →
  alloc h pos → ¬ unlinked h pos →
  alloc h first → ¬ unlinked h first →
  alloc h last → ¬ unlinked h last →
  first = last ∨ (pos ≠ first ∧ pos ≠ last) →
  ∃ h', Base.splice h pos first last = Done h' ∧ wf h'.
Proof.
  intros Hwf Hp Hp' Hf Hf' Hl Hl' Hcase.
  destruct (decide (first = last)) as [->|Hfl].
  { exists h. unfold Base.splice. by rewrite bool_decide_true. }
  destruct Hcase as [?|[Hpf Hpl]]; [done|].
  destruct (Hwf pos Hp) as [?|(P & ? & HP & _)]; [done|].
  destruct (Hwf first Hf) as [?|(F & ? & HF & _)]; [done|].
  destruct (Hwf last Hl) as [?|(L & ? & HL & _)]; [done|].
  exists (splice_heap h P F L pos first last). split.
  - by apply splice_spec.
  - by apply wf_splice.
Qed.

(** X17.  In a store that satisfies the node invariant, [clear] on the
    sentinel of a well-formed list completes, keeps the invariant, and
    writes no node outside the list. *)
Theorem clear_keeps_node_invariant (fuel : nat) (h : heap) (l : addr)
    (xs : list addr) :
  wf h → is_list h l xs → length xs ≤ fuel →
  ∃ h', Base.clear fuel h l = Done h' ∧
        wf h' ∧
        (∀ b g, b ∉ l :: xs → rd h' b g = rd h b g).
Proof.
  intros Hwf Hl Hfuel. exists (clear_heap h l xs). split_and!.
  - by apply clear_spec.
  - by apply wf_clear.
  - intros b g Hb. rewrite (clear_heap_rd h l xs) by done.
    repeat case_decide; set_solver.
Qed.

(** X18.  Two lists that share no node are independent: erasing an element
    of [X], pushing an unlinked element to [X], or clearing [X] leaves the
    list [Y] with the same elements in the same order. *)
Theorem lists_are_independent (fuel : nat) (h : heap) (X : addr) (xs : list addr)
    (Y : addr) (ys : list addr) :
  is_list h X xs → is_list h Y ys →
  (∀ a, a ∈ X :: xs → a ∉ Y :: ys) →
  (∀ x, x ∈ xs →
     ∃ h' it, IList.erase h X (mk_iter (Some x)) = Done (h', it) ∧
              is_list h' Y ys) ∧
  (∀ obj, unlinked h obj →
     ∃ h', IList.push_back h X obj = Done h' ∧ is_list h' Y ys) ∧
  (length xs ≤ fuel →
     ∃ h', IList.clear fuel h X = Done h' ∧ is_list h' Y ys).
Proof.
  intros HX HY Hdisj. split_and!.
  - intros x Hx. apply list_elem_of_split in Hx as (xs1 & xs2 & ->).
    destruct (unlink_is_list _ _ _ _ _ HX) as (Hpx & Hxn & Hne1 & Hne2 & Hu & _).
    eexists _, _. split.
    + unfold IList.erase. simpl. destruct Hxn as [Hxn' _]. step. by rewrite Hu.
    + revert HY. apply (ring_same _ _ (Y :: ys)). intros b g Hb.
      rewrite unlink_heap_rd; [|alloc_tac..|done|done].
      assert (end_of X xs1 ∈ X :: xs1 ++ x :: xs2).
      { pose proof (end_of_elem X xs1). set_solver. }
      assert (hd X xs2 ∈ X :: xs1 ++ x :: xs2).
      { destruct xs2; simpl; set_solver. }
      assert (b ≠ x) by (intros ->; apply (Hdisj x); set_solver).
      assert (b ≠ end_of X xs1) by (intros ->; by apply (Hdisj (end_of X xs1))).
      assert (b ≠ hd X xs2) by (intros ->; by apply (Hdisj (hd X xs2))).
      repeat case_decide; naive_solver.
  - intros obj Hu.
    assert (obj ∉ X :: xs) as Hnin by (by apply (unlinked_not_in_ring h (X :: xs))).
    assert (obj ∉ Y :: ys) as Hnin' by (by apply (unlinked_not_in_ring h (Y :: ys))).
    destruct (insert_is_list h X xs [] obj) as [H1 _];
      [by rewrite app_nil_r|by apply unlinked_alloc|by rewrite app_nil_r|].
    simpl in H1. eexists. split; [exact H1|].
    revert HY. apply (ring_same _ _ (Y :: ys)). intros b g Hb.
    pose proof HX as [[_ HpX]%path_snoc _].
    assert (end_of X xs ∈ X :: xs) by apply end_of_elem.
    assert (obj ≠ X) by set_solver.
    assert (obj ≠ end_of X xs) by (intros ->; done).
    rewrite insert_heap_rd;
      [|first [alloc_tac | by apply unlinked_alloc]..|done|done].
    assert (b ≠ obj) by (intros ->; done).
    assert (b ≠ X) by (intros ->; apply (Hdisj X); set_solver).
    assert (b ≠ end_of X xs) by (intros ->; by apply (Hdisj (end_of X xs))).
    repeat case_decide; naive_solver.
  - intros Hfuel. exists (clear_heap h X xs). split; [by apply clear_spec|].
    revert HY. apply (ring_same _ _ (Y :: ys)). intros b g Hb.
    rewrite (clear_heap_rd h X xs) by done.
    assert (b ∉ X :: xs) by (intros Hin; by apply (Hdisj b)).
    repeat case_decide; set_solver.
Qed.
(** ** The loop of [clear] terminates on every store *)

Lemma reset_heap_insert h a nd :
  h !! a = Some nd → reset_heap h a = <[a := mk_base nullptr nullptr]> h.
Proof.
  intros Ha. unfold reset_heap, upd. apply map_eq. intros b.
  destruct (decide (a = b)) as [<-|Hne].
  - rewrite lookup_insert_eq, !lookup_alter_eq, Ha. by destruct nd.
  - by rewrite lookup_insert_ne, !lookup_alter_ne.
Qed.

Lemma linked_count_reset h a nd :
  h !! a = Some nd → next nd ≠ nullptr →
  linked_count h = S (linked_count (reset_heap h a)).
Proof.
  intros Ha Hn. unfold linked_count.
  rewrite (reset_heap_insert h a nd Ha).
  rewrite map_filter_insert_False by (simpl; naive_solver).
  rewrite map_filter_delete.
  assert (filter (λ kv : addr * list_element_base, next kv.2 ≠ nullptr) h !! a
          = Some nd) as Hf.
  { by apply map_lookup_filter_Some. }
  rewrite map_size_delete, Hf.
  assert (size (filter (λ kv : addr * list_element_base, next kv.2 ≠ nullptr) h) ≠ 0).
  { apply map_size_non_empty_iff. intros Hempty. rewrite Hempty in Hf.
    by rewrite lookup_empty in Hf. }
  lia.
Qed.

Lemma linked_count_le_size h : linked_count h ≤ size h.
Proof. unfold linked_count. apply map_subseteq_size, map_filter_subseteq. Qed.

Lemma clear_loop_fuel_enough : ∀ fuel h p this,
  linked_count h + 2 ≤ fuel → Base.clear_loop fuel h p this ≠ OutOfFuel.
Proof.
  induction fuel as [|fuel IH]; intros h p this Hfuel; [lia|].
  simpl. case_bool_decide as Hp; [|done].
  destruct p as [a|]; simpl; [|done].
  unfold load. destruct (h !! a) as [nd|] eqn:Ha; simpl; [|done].
  assert (alloc h a) as Hal by (by eexists).
  rewrite store_alloc by done. simpl.
  rewrite store_alloc by (by apply alloc_upd). simpl.
  fold (reset_heap h a).
  destruct (next nd) as [n|] eqn:Hn.
  - apply IH.
    rewrite (linked_count_reset h a nd Ha) in Hfuel by (rewrite Hn; done). lia.
  - destruct fuel as [|fuel']; [lia|]. by simpl.
Qed.

Lemma clear_loop_not_assert : ∀ fuel h p this,
  Base.clear_loop fuel h p this ≠ AssertFailed.
Proof.
  induction fuel as [|fuel IH]; intros h p this; simpl.
  - by case_bool_decide.
  - case_bool_decide; [|done].
    destruct p as [a|]; simpl; [|done].
    unfold load. destruct (h !! a) as [nd|] eqn:Ha; simpl; [|done].
    assert (alloc h a) as Hal by (by eexists).
    rewrite store_alloc by done. simpl.
    rewrite store_alloc by (by apply alloc_upd). simpl.
    apply IH.
Qed.

(** X19.  The loop of [clear] cannot run forever.  On any store, whatever
    the pointers look like, a budget of two more iterations than there are
    objects is never used up: [clear] has completed or has dereferenced a
    null or dangling pointer before.  It never fails an assertion. *)
Theorem clear_terminates (extra : nat) (h : heap) (this : addr) :
  Base.clear (size h + 2 + extra) h this ≠ OutOfFuel ∧
  Base.clear (size h + 2 + extra) h this ≠ AssertFailed.
Proof.
  split.
  - unfold Base.clear. unfold load. destruct (h !! this) as [nd|]; simpl; [|done].
    destruct (Base.clear_loop (size h + 2 + extra) h (next nd) this) as [h1| | |] eqn:E;
      simpl; try done.
    + unfold store. destruct (h1 !! this); simpl; [|done].
      by rewrite lookup_insert_eq.
    + exfalso. revert E. apply clear_loop_fuel_enough.
      pose proof (linked_count_le_size h). lia.
  - intros Hfail. unfold Base.clear in Hfail.
    apply bind_AssertFailed_inv in Hfail as [Hfail|(p & _ & Hfail)];
      [by apply load_not_assert in Hfail|].
    apply bind_AssertFailed_inv in Hfail as [Hfail|(h1 & _ & Hfail)].
    + by apply clear_loop_not_assert in Hfail.
    + inv_assert Hfail.
Qed.
(** ** [triswap] *)

(** X20.  [triswap] on three different lvalues rotates their values: [a]
    receives the value of [b], [b] that of [c], [c] that of [a], and nothing
    else is written.  Three rotations restore the store. *)
Theorem triswap_rotates (h : heap) (a b c : lvalue) (va vb vc : ptr) :
  a ≠ b → b ≠ c → a ≠ c →
  rd h a.1 a.2 = Some va → rd h b.1 b.2 = Some vb → rd h c.1 c.2 = Some vc →
  ∃ h1, Base.triswap h a b c = Done h1 ∧
        rd h1 a.1 a.2 = Some vb ∧ rd h1 b.1 b.2 = Some vc ∧
        rd h1 c.1 c.2 = Some va ∧
        (∀ x f, (x, f) ≠ a → (x, f) ≠ b → (x, f) ≠ c → rd h1 x f = rd h x f) ∧
        (h2 ← Base.triswap h1 a b c; Base.triswap h2 a b c) = Done h.
Proof.
  destruct a as [a fa], b as [b fb], c as [c fc]; simpl.
  intros Hab Hbc Hac Ha Hb Hc.
  exists (rot3 h (a, fa) (b, fb) (c, fc) va vb vc).
  assert (∀ (h0 : heap) ua ub uc x f,
            rd h0 a fa = Some ua → rd h0 b fb = Some ub → rd h0 c fc = Some uc →
            rd (rot3 h0 (a, fa) (b, fb) (c, fc) ua ub uc) x f =
            if decide ((x, f) = (c, fc)) then Some ua
            else if decide ((x, f) = (b, fb)) then Some uc
            else if decide ((x, f) = (a, fa)) then Some ub
            else rd h0 x f) as Hrot.
  { intros h0 ua ub uc x f Ha0 Hb0 Hc0. unfold rot3. simpl.
    rewrite !rd_upd. repeat case_decide; destruct_and?; simplify_eq;
      rewrite ?Ha0, ?Hb0, ?Hc0; try done; exfalso; naive_solver. }
  split_and!.
  - by apply triswap_spec.
  - rewrite Hrot by done. repeat case_decide; naive_solver.
  - rewrite Hrot by done. repeat case_decide; naive_solver.
  - rewrite Hrot by done. repeat case_decide; naive_solver.
  - intros x f H1 H2 H3. rewrite Hrot by done. repeat case_decide; naive_solver.
  - set (h1 := rot3 h (a, fa) (b, fb) (c, fc) va vb vc).
    assert (rd h1 a fa = Some vb) as Ha1.
    { unfold h1. rewrite Hrot by done. repeat case_decide; naive_solver. }
    assert (rd h1 b fb = Some vc) as Hb1.
    { unfold h1. rewrite Hrot by done. repeat case_decide; naive_solver. }
    assert (rd h1 c fc = Some va) as Hc1.
    { unfold h1. rewrite Hrot by done. repeat case_decide; naive_solver. }
    rewrite (triswap_spec h1 _ _ _ vb vc va) by done. simpl.
    set (h2 := rot3 h1 (a, fa) (b, fb) (c, fc) vb vc va).
    assert (rd h2 a fa = Some vc) as Ha2.
    { unfold h2. rewrite Hrot by done. repeat case_decide; naive_solver. }
    assert (rd h2 b fb = Some va) as Hb2.
    { unfold h2. rewrite Hrot by done. repeat case_decide; naive_solver. }
    assert (rd h2 c fc = Some vb) as Hc2.
    { unfold h2. rewrite Hrot by done. repeat case_decide; naive_solver. }
    rewrite (triswap_spec h2 _ _ _ vc va vb) by done. f_equal.
    apply heap_ext. intros x f.
    rewrite Hrot by done. unfold h2. rewrite Hrot by done.
    unfold h1. rewrite Hrot by done.
    repeat case_decide; simplify_eq; try done; naive_solver.
Qed.

(** X21.  [triswap] with aliased arguments.  When the third lvalue is the
    first one, the store is left as it was; when the second lvalue is the
    first one, the values of the first and the third are exchanged.  These
    are the cases that [splice] reaches when [pos] is [last] or [first]. *)
Theorem triswap_aliased (h : heap) (a b c : lvalue) (va vb vc : ptr) :
  rd h a.1 a.2 = Some va → rd h b.1 b.2 = Some vb → rd h c.1 c.2 = Some vc →
  Base.triswap h a b a = Done h ∧
  (a ≠ c → Base.triswap h a a c = Done (upd (upd h a.1 a.2 vc) c.1 c.2 va)).
Proof.
  destruct a as [a fa], b as [b fb], c as [c fc]; simpl.
  intros Ha Hb Hc. split.
  - unfold Base.triswap. simpl. repeat step.
    destruct (decide ((b, fb) = (a, fa))) as [Heq|Hne].
    + simplify_eq. repeat step. f_equal. apply heap_ext. intros x f.
      rewrite !rd_upd. repeat case_decide; destruct_and?; simplify_eq;
        rewrite ?Ha; try done; naive_solver.
    + assert (rd (upd h a fa vb) b fb = Some vb) as Hb'
        by (by rewrite rd_upd_ne by done).
      repeat step. f_equal. apply heap_ext. intros x f.
      rewrite !rd_upd. repeat case_decide; destruct_and?; simplify_eq;
        rewrite ?Ha, ?Hb; try done; naive_solver.
  - intros Hac. unfold Base.triswap. simpl. repeat step.
    assert (rd (upd h a fa va) c fc = Some vc) as Hc'
      by (by rewrite rd_upd_ne by done).
    repeat step. f_equal. apply heap_ext. intros x f.
    rewrite !rd_upd. repeat case_decide; destruct_and?; simplify_eq;
      rewrite ?Ha, ?Hc; try done; naive_solver.
Qed.
(** ** Moves compose: swapping two lists *)

Lemma move_ctor_spec h src dst xs :
  is_list h src xs → h !! dst = None →
  ∃ h', IList.move_ctor h dst src = Done h' ∧
        is_list h' src [] ∧ is_list h' dst xs ∧
        (∀ a, alloc h' a ↔ a = dst ∨ alloc h a) ∧
        (∀ a g, a ∉ dst :: src :: xs → rd h' a g = rd h a g).
Proof.
  intros Hl Hfresh.
  assert (dst ∉ src :: xs) as Hnin.
  { intros Hin. apply (ring_alloc h (src :: xs)) in Hin; [|done].
    destruct Hin as [? Hin]. congruence. }
  assert (is_list (IList.ctor h dst) src xs) as Hl0.
  { revert Hl. apply (ring_same _ _ (src :: xs)). intros x f Hx.
    apply rd_insert_ne. intros ->. done. }
  destruct (splice_all (IList.ctor h dst) dst src xs (ctor_is_list h dst) Hl0 Hnin)
    as (h' & E & L2 & L1 & Ha & Fr).
  exists h'. split_and!; try done.
  - intros a. rewrite Ha. apply ctor_alloc.
  - intros a g Hnin'. rewrite Fr by done. apply rd_insert_ne. set_solver.
Qed.

Lemma move_assign_spec fuel h this xs other ys :
  is_list h this xs → is_list h other ys →
  (∀ a, a ∈ this :: xs → a ∉ other :: ys) → length xs ≤ fuel →
  ∃ h', IList.move_assign fuel h this other = Done h' ∧
        is_list h' this ys ∧ is_list h' other [] ∧
        (∀ x, x ∈ xs → unlinked h' x) ∧
        (∀ a, alloc h' a ↔ alloc h a) ∧
        (∀ a g, a ∉ (this :: xs) ++ (other :: ys) → rd h' a g = rd h a g).
Proof.
  intros Hl Ho Hdisj Hfuel.
  pose proof (clear_spec fuel h this xs Hl Hfuel) as Hc.
  destruct (clear_is_list h this xs Hl) as [Hl1 Hun].
  assert (is_list (clear_heap h this xs) other ys) as Ho1.
  { revert Ho. apply (ring_same _ _ (other :: ys)). intros x f Hx.
    rewrite (clear_heap_rd h this xs) by done.
    assert (x ∉ this :: xs) by (intros Hin; by apply (Hdisj x)).
    repeat case_decide; set_solver. }
  assert (this ∉ other :: ys) as Hnin by (apply Hdisj; set_solver).
  destruct (splice_all _ this other ys Hl1 Ho1 Hnin) as (h' & E & L2 & L1 & Ha & Fr).
  exists h'. split_and!; try done.
  - unfold IList.move_assign. by rewrite Hc, bind_Done.
  - intros x Hx. apply unlinked_rd.
    assert (x ∉ this :: other :: ys).
    { assert (x ∉ other :: ys) by (apply Hdisj; set_solver).
      destruct Hl as [_ [Hthis _]%NoDup_cons]. set_solver. }
    rewrite !Fr by done. apply unlinked_rd. by apply Hun.
  - intros a. rewrite Ha. apply clear_heap_alloc.
  - intros a g Ha'. rewrite Fr by set_solver.
    rewrite (clear_heap_rd h this xs) by done.
    repeat case_decide; set_solver.
Qed.

(** X22.  The swap by three moves that the comment in the move constructor
    leaves unchecked does exchange two lists: after
    [list tmp(std::move(a)); a = std::move(b); b = std::move(tmp);] and the
    destruction of [tmp], the list [a] holds the former elements of [b] and
    the list [b] those of [a], in the same order; the temporary is gone and
    no other node is written.  No iteration budget is needed, since every
    list that is cleared on the way is empty. *)
Theorem swap_by_moves_exchanges (fuel : nat) (h : heap) (a b tmp : addr)
    (xs ys : list addr) :
  is_list h a xs → is_list h b ys →
  (∀ x, x ∈ a :: xs → x ∉ b :: ys) →
  h !! tmp = None →
  ∃ h', swap_by_moves fuel h a b tmp = Done h' ∧
        is_list h' a ys ∧ is_list h' b xs ∧
        h' !! tmp = None ∧
        (∀ x g, x ∉ (a :: xs) ++ (b :: ys) → x ≠ tmp → rd h' x g = rd h x g).
Proof.
  intros Ha Hb Hdisj Hfresh.
  assert (∀ l zs, is_list h l zs → tmp ∉ l :: zs) as Hfresh'.
  { intros l zs Hl Hin. apply (ring_alloc h (l :: zs)) in Hin; [|done].
    destruct Hin as [? Hin]. congruence. }
  assert (tmp ∉ a :: xs) as Hta by (by apply Hfresh').
  assert (tmp ∉ b :: ys) as Htb by (by apply Hfresh').
  pose proof Ha as [_ [Haxs _]%NoDup_cons].
  pose proof Hb as [_ [Hbys _]%NoDup_cons].
  (* list tmp(std::move(a)) *)
  destruct (move_ctor_spec h a tmp xs Ha Hfresh) as (h1 & E1 & La1 & Lt1 & _ & F1).
  assert (is_list h1 b ys) as Lb1.
  { revert Hb. apply (ring_same _ _ (b :: ys)). intros x f Hx. apply F1.
    assert (x ∉ a :: xs) by (intros Hin; by apply (Hdisj x)).
    assert (x ≠ tmp) by (intros ->; done). set_solver. }
  (* a = std::move(b) *)
  destruct (move_assign_spec fuel h1 a [] b ys La1 Lb1) as
    (h2 & E2 & La2 & Lb2 & _ & _ & F2); [intros x Hx; apply Hdisj; set_solver|simpl; lia|].
  assert (is_list h2 tmp xs) as Lt2.
  { revert Lt1. apply (ring_same _ _ (tmp :: xs)). intros x f Hx. apply F2.
    assert (x ∉ b :: ys).
    { apply elem_of_cons in Hx as [->|Hx]; [done|]. apply Hdisj. set_solver. }
    assert (x ≠ a) by (intros ->; set_solver). set_solver. }
  (* b = std::move(tmp) *)
  destruct (move_assign_spec fuel h2 b [] tmp xs Lb2 Lt2) as
    (h3 & E3 & Lb3 & Lt3 & _ & _ & F3).
  { intros x ->%list_elem_of_singleton. intros Hin.
    apply elem_of_cons in Hin as [->|Hin]; [set_solver|].
    apply (Hdisj b); set_solver. }
  { simpl; lia. }
  assert (is_list h3 a ys) as La3.
  { revert La2. apply (ring_same _ _ (a :: ys)). intros x f Hx. apply F3.
    assert (x ∉ tmp :: xs).
    { apply elem_of_cons in Hx as [->|Hx]; [set_solver|].
      intros Hin. apply elem_of_cons in Hin as [->|Hin]; [set_solver|].
      apply (Hdisj x); set_solver. }
    assert (x ≠ b) by (intros ->; apply (Hdisj a); set_solver || set_solver).
    set_solver. }
  (* ~list() of tmp *)
  pose proof (clear_spec fuel h3 tmp [] Lt3) as E4.
  exists (delete tmp (clear_heap h3 tmp [])). split_and!.
  - unfold swap_by_moves. rewrite E1, bind_Done, E2, bind_Done, E3, bind_Done.
    unfold IList.dtor. rewrite E4 by (simpl; lia). done.
  - revert La3. apply (ring_same _ _ (a :: ys)). intros x f Hx.
    assert (x ≠ tmp) by (intros ->; set_solver).
    rewrite rd_delete by done. rewrite (clear_heap_rd h3 tmp []) by done.
    repeat case_decide; set_solver.
  - revert Lb3. apply (ring_same _ _ (b :: xs)). intros x f Hx.
    assert (x ≠ tmp) by (intros ->; set_solver).
    rewrite rd_delete by done. rewrite (clear_heap_rd h3 tmp []) by done.
    repeat case_decide; set_solver.
  - apply lookup_delete_eq.
  - intros x g Hx Hxt. rewrite rd_delete by done.
    rewrite (clear_heap_rd h3 tmp []) by done.
    rewrite decide_False by done. rewrite decide_False by set_solver.
    rewrite F3 by set_solver. rewrite F2 by set_solver. apply F1. set_solver.
Qed.
(** ** Nothing is left pointing at a destroyed object *)

Lemma delete_isolated h x :
  wf h → unlinked h x ∨ links h x x →
  wf (delete x h) ∧ (∀ b g, rd (delete x h) b g ≠ Some (Some x)).
Proof.
  intros Hwf Hiso.
  assert (∀ b g, b ≠ x → rd h b g ≠ Some (Some x)) as Hnone.
  { intros b g Hbx Hb.
    destruct (Hwf b (rd_alloc _ _ _ _ Hb)) as [[Hu1 Hu2]%unlinked_rd|Hlinked].
    - unfold nullptr in *. destruct g; congruence.
    - destruct Hlinked as (p & n & [Hp1 Hp2] & [Hn1 Hn2]).
      destruct Hiso as [[Hx1 Hx2]%unlinked_rd|[Hx1 Hx2]]; unfold nullptr in *;
        destruct g; congruence. }
  split.
  - intros b [nd Hb]. destruct (decide (b = x)) as [->|Hbx].
    { by rewrite lookup_delete_eq in Hb. }
    rewrite lookup_delete_ne in Hb by done.
    assert (alloc h b) as Hal by (by eexists).
    apply node_ok_rd. rewrite !rd_delete by done.
    pose proof (Hwf b Hal) as Hok.
    apply node_ok_rd in Hok as [Hu|(p & n & Hp1 & Hn1 & Hp2 & Hn2)]; [by left|].
    right. exists p, n.
    assert (p ≠ x) by (intros ->; by apply (Hnone b Prev)).
    assert (n ≠ x) by (intros ->; by apply (Hnone b Next)).
    by rewrite !rd_delete by done.
  - intros b g Hb. destruct (decide (b = x)) as [->|Hbx].
    + unfold rd in Hb. by rewrite lookup_delete_eq in Hb.
    + rewrite rd_delete in Hb by done. by apply (Hnone b g).
Qed.

(** X23.  Auto-unlink leaves no dangling pointer.  In a store that satisfies
    the node invariant, destroying an element, linked or not, completes;
    afterwards the invariant still holds and no [prev] or [next] of any
    object points to the destroyed element. *)
Theorem destroy_leaves_no_dangling_pointer (h : heap) (x : addr) :
  wf h → alloc h x → ¬ links h x x →
  ∃ h', Element.destroy h x = Done h' ∧
        wf h' ∧
        h' !! x = None ∧
        (∀ b g, rd h' b g ≠ Some (Some x)).
Proof.
  intros Hwf Hx Hself.
  destruct (wf_try_unlink h x Hwf Hx Hself) as (h1 & E & Hwf1 & Hu).
  destruct (delete_isolated h1 x Hwf1 (or_introl Hu)) as [Hwf' Hnone].
  exists (delete x h1). split_and!; try done.
  - unfold Element.destroy, Element.dtor. by rewrite E.
  - apply lookup_delete_eq.
Qed.

(** X24.  Destroying a list leaves no dangling pointer either.  In a store
    that satisfies the node invariant, [~list()] on a well-formed list
    completes and unlinks every element; once the storage of the list is
    released the invariant holds and no object points to the sentinel. *)
Theorem list_dtor_leaves_no_dangling_pointer (fuel : nat) (h : heap) (l : addr)
    (xs : list addr) :
  wf h → is_list h l xs → length xs ≤ fuel →
  ∃ h', IList.dtor fuel h l = Done h' ∧
        (∀ x, x ∈ xs → unlinked h' x) ∧
        wf (delete l h') ∧
        (∀ b g, rd (delete l h') b g ≠ Some (Some l)).
Proof.
  intros Hwf Hl Hfuel.
  destruct (clear_is_list h l xs Hl) as [[[Hll _] _] Hun].
  pose proof (wf_clear h l xs Hwf Hl) as Hwf'.
  destruct (delete_isolated _ l Hwf' (or_intror Hll)) as [Hwf'' Hnone].
  exists (clear_heap h l xs). split_and!; try done.
  by apply clear_spec.
Qed.

(** X25.  The constructors establish the invariant.  Constructing a list at
    a free address gives an empty well-formed list ([empty()] is [true],
    [begin() == end()]); constructing an element at a free address gives an
    unlinked node; both keep the node invariant of the store. *)
Theorem constructors_establish_invariant (h : heap) (a : addr) :
  wf h → h !! a = None →
  (is_list (IList.ctor h a) a [] ∧
   IList.empty (IList.ctor h a) a = Done true ∧
   IList.begin (IList.ctor h a) a = Done (IList.end_ a) ∧
   wf (IList.ctor h a)) ∧
  (unlinked (Element.ctor h a) a ∧ wf (Element.ctor h a)).
Proof.
  intros Hwf Hfresh.
  assert (∀ nd b, alloc (<[a := nd]> h) b → b ≠ a → node_ok (<[a := nd]> h) b)
    as Hothers.
  { intros nd b Hb Hba. unfold alloc in Hb. rewrite lookup_insert_ne in Hb by done.
    apply node_ok_rd. rewrite !rd_insert_ne by done.
    pose proof (Hwf b Hb) as Hok.
    apply node_ok_rd in Hok as [Hu|(p & n & Hp1 & Hn1 & Hp2 & Hn2)]; [by left|].
    right. exists p, n.
    assert (p ≠ a).
    { intros ->. apply rd_alloc in Hp2 as [? Hp2]. congruence. }
    assert (n ≠ a).
    { intros ->. apply rd_alloc in Hn2 as [? Hn2]. congruence. }
    by rewrite !rd_insert_ne by done. }
  pose proof (ctor_is_list h a) as Hl.
  split; split_and!.
  - exact Hl.
  - by rewrite (is_list_empty _ _ _ Hl).
  - by rewrite (is_list_begin _ _ _ Hl).
  - intros b Hb. destruct (decide (b = a)) as [->|Hba].
    + right. exists a, a. by destruct Hl as [[Hll _] _].
    + by apply Hothers.
  - apply ctor_unlinked.
  - intros b Hb. destruct (decide (b = a)) as [->|Hba].
    + left. apply ctor_unlinked.
    + by apply Hothers.
Qed.
(** ** Instances of the further properties on the concrete stores *)

Ltac concrete_wf := apply wfb_spec; vm_compute; reflexivity.

Lemma push_back_pop_back_roundtrip_witness :
  is_list demo_AB 1%positive [2%positive; 3%positive] ∧
  unlinked demo_AB 4%positive ∧
  ∃ h1, IList.push_back demo_AB 1%positive 4%positive = Done h1 ∧
        is_list h1 1%positive [2%positive; 3%positive; 4%positive] ∧
        IList.back h1 1%positive = Done 4%positive ∧
        IList.empty h1 1%positive = Done false ∧
        IList.pop_back h1 1%positive = Done demo_AB.
Proof.
  assert (is_list demo_AB 1%positive [2%positive; 3%positive]) as H by concrete_list.
  assert (unlinked demo_AB 4%positive) as H' by reflexivity.
  split; [exact H|]. split; [exact H'|].
  exact (push_back_pop_back_roundtrip demo_AB 1%positive [2%positive; 3%positive]
           4%positive H H').
Defined.

Lemma push_front_pop_front_roundtrip_witness :
  is_list demo_AB 1%positive [2%positive; 3%positive] ∧
  unlinked demo_AB 4%positive ∧
  ∃ h1, IList.push_front demo_AB 1%positive 4%positive = Done h1 ∧
        is_list h1 1%positive [4%positive; 2%positive; 3%positive] ∧
        IList.front h1 1%positive = Done 4%positive ∧
        IList.begin h1 1%positive = Done (mk_iter (Some 4%positive)) ∧
        IList.pop_front h1 1%positive = Done demo_AB.
Proof.
  assert (is_list demo_AB 1%positive [2%positive; 3%positive]) as H by concrete_list.
  assert (unlinked demo_AB 4%positive) as H' by reflexivity.
  split; [exact H|]. split; [exact H'|].
  exact (push_front_pop_front_roundtrip demo_AB 1%positive [2%positive; 3%positive]
           4%positive H H').
Defined.

Lemma insert_erase_roundtrip_witness :
  is_list demo_AB 1%positive ([2%positive] ++ [3%positive]) ∧
  unlinked demo_AB 4%positive ∧
  ∃ h1 it, IList.insert demo_AB 1%positive (mk_iter (Some 3%positive)) 4%positive
             = Done (h1, it) ∧
           Iter.star it = Done 4%positive ∧
           Iter.incr h1 it = Done (mk_iter (Some 3%positive)) ∧
           is_list h1 1%positive [2%positive; 4%positive; 3%positive] ∧
           IList.erase h1 1%positive it = Done (demo_AB, mk_iter (Some 3%positive)).
Proof.
  assert (is_list demo_AB 1%positive ([2%positive] ++ [3%positive])) as H
    by concrete_list.
  assert (unlinked demo_AB 4%positive) as H' by reflexivity.
  split; [exact H|]. split; [exact H'|].
  exact (insert_erase_roundtrip demo_AB 1%positive [2%positive] [3%positive]
           4%positive H H').
Defined.

Lemma erase_insert_roundtrip_witness :
  is_list demo_ABC 1%positive ([2%positive] ++ 3%positive :: [4%positive]) ∧
  ∃ h1 it, IList.erase demo_ABC 1%positive (mk_iter (Some 3%positive)) = Done (h1, it) ∧
           is_list h1 1%positive [2%positive; 4%positive] ∧
           IList.insert h1 1%positive it 3%positive
             = Done (demo_ABC, mk_iter (Some 3%positive)).
Proof.
  assert (is_list demo_ABC 1%positive ([2%positive] ++ 3%positive :: [4%positive]))
    as H by concrete_list.
  split; [exact H|].
  exact (erase_insert_roundtrip demo_ABC 1%positive [2%positive] 3%positive
           [4%positive] H).
Defined.

Lemma pop_on_empty_list_fails_assertion_witness :
  is_list demo_fresh 1%positive [] ∧
  IList.pop_back demo_fresh 1%positive = AssertFailed ∧
  IList.pop_front demo_fresh 1%positive = AssertFailed ∧
  IList.erase demo_fresh 1%positive (IList.end_ 1%positive) = AssertFailed.
Proof.
  assert (is_list demo_fresh 1%positive []) as H by concrete_list.
  split; [exact H|].
  exact (pop_on_empty_list_fails_assertion demo_fresh 1%positive H).
Defined.

Lemma erase_end_unlinks_sentinel_witness :
  is_list demo_AB 1%positive [2%positive; 3%positive] ∧
  ∃ h', IList.erase demo_AB 1%positive (IList.end_ 1%positive)
          = Done (h', mk_iter (Some 2%positive)) ∧
        unlinked h' 1%positive ∧
        ring h' [2%positive; 3%positive] ∧
        IList.begin h' 1%positive = Done (mk_iter nullptr).
Proof.
  assert (is_list demo_AB 1%positive [2%positive; 3%positive]) as H by concrete_list.
  split; [exact H|].
  exact (erase_end_unlinks_sentinel demo_AB 1%positive 2%positive [3%positive] H).
Defined.

Lemma traversals_visit_the_elements_witness :
  is_list demo_ABC 1%positive [2%positive; 3%positive; 4%positive] ∧
  length [2%positive; 3%positive; 4%positive] ≤ 3 ∧
  contents 3 demo_ABC 1%positive = Done [2%positive; 3%positive; 4%positive] ∧
  contents_rev 3 demo_ABC 1%positive = Done [4%positive; 3%positive; 2%positive] ∧
  NoDup [2%positive; 3%positive; 4%positive] ∧
  IList.empty demo_ABC 1%positive = Done false.
Proof.
  assert (is_list demo_ABC 1%positive [2%positive; 3%positive; 4%positive]) as H
    by concrete_list.
  assert (length [2%positive; 3%positive; 4%positive] ≤ 3) as H' by (simpl; lia).
  split; [exact H|]. split; [exact H'|].
  exact (traversals_visit_the_elements 3 demo_ABC 1%positive
           [2%positive; 3%positive; 4%positive] H H').
Defined.

Lemma incr_decr_inverse_witness :
  wf demo_AB ∧ alloc demo_AB 2%positive ∧ ¬ unlinked demo_AB 2%positive ∧
  ∃ nx pv, Iter.incr demo_AB (mk_iter (Some 2%positive)) = Done nx ∧
           Iter.decr demo_AB nx = Done (mk_iter (Some 2%positive)) ∧
           Iter.decr demo_AB (mk_iter (Some 2%positive)) = Done pv ∧
           Iter.incr demo_AB pv = Done (mk_iter (Some 2%positive)).
Proof.
  assert (wf demo_AB) as H by concrete_wf.
  assert (alloc demo_AB 2%positive) as Ha by (eexists; reflexivity).
  assert (¬ unlinked demo_AB 2%positive) as Hl by (intros Hu; discriminate Hu).
  split; [exact H|]. split; [exact Ha|]. split; [exact Hl|].
  exact (incr_decr_inverse demo_AB 2%positive H Ha Hl).
Defined.

Lemma advance_around_ring_witness :
  ring demo_ABC [1%positive; 2%positive; 3%positive; 4%positive] ∧
  advance demo_ABC 4 (mk_iter (Some 1%positive)) = Done (mk_iter (Some 1%positive)) ∧
  (∀ i x, [2%positive; 3%positive; 4%positive] !! i = Some x →
     advance demo_ABC (S i) (mk_iter (Some 1%positive)) = Done (mk_iter (Some x))).
Proof.
  assert (ring demo_ABC [1%positive; 2%positive; 3%positive; 4%positive]) as H
    by concrete_list.
  split; [exact H|].
  exact (advance_around_ring demo_ABC 1%positive
           [2%positive; 3%positive; 4%positive] H).
Defined.
Ltac concrete_disjoint :=
  let a := fresh "a" in let Ha := fresh "Ha" in let Hb := fresh "Hb" in
  intros a Ha Hb;
  repeat (rewrite elem_of_app in Ha || rewrite elem_of_cons in Ha);
  repeat (rewrite elem_of_app in Hb || rewrite elem_of_cons in Hb);
  repeat match goal with
         | H : _ ∨ _ |- _ => destruct H as [H|H]
         | H : _ ∈ [] |- _ => by apply elem_of_nil in H
         end; subst; discriminate.

Lemma splice_between_lists_witness :
  is_list demo_two 1%positive ([] ++ (2%positive :: [3%positive]) ++ []) ∧
  is_list demo_two 5%positive ([4%positive] ++ []) ∧
  length [2%positive; 3%positive] ≤ 2 ∧
  ∃ h', IList.splice demo_two 5%positive (mk_iter (Some 5%positive)) 1%positive
          (mk_iter (Some 2%positive)) (mk_iter (Some 1%positive)) = Done h' ∧
        is_list h' 1%positive [] ∧
        is_list h' 5%positive [4%positive; 2%positive; 3%positive] ∧
        splice_reference 2 demo_two 1%positive 5%positive (mk_iter (Some 5%positive))
          (mk_iter (Some 2%positive)) (mk_iter (Some 1%positive)) = Done h'.
Proof.
  assert (is_list demo_two 1%positive ([] ++ (2%positive :: [3%positive]) ++ []))
    as HX by concrete_list.
  assert (is_list demo_two 5%positive ([4%positive] ++ [])) as HY by concrete_list.
  assert (∀ a : addr, a ∈ 5%positive :: [4%positive] ++ [] →
            a ∉ 1%positive :: [] ++ (2%positive :: [3%positive]) ++ []) as Hd
    by concrete_disjoint.
  assert (length [2%positive; 3%positive] ≤ 2) as Hf by (simpl; lia).
  split; [exact HX|]. split; [exact HY|]. split; [exact Hf|].
  destruct (splice_between_lists 2 demo_two 1%positive 5%positive [] 2%positive
              [3%positive] [] [4%positive] [] HX HY Hd Hf)
    as (h' & E & L1 & L2 & R & _).
  exists h'. split; [exact E|]. split; [exact L1|]. split; [exact L2|exact R].
Defined.

Lemma splice_within_ring_witness :
  ring demo_ABC (1%positive :: [] ++ 2%positive :: [] ++ 3%positive :: [4%positive]) ∧
  length [2%positive] ≤ 1 ∧
  ∃ h', IList.splice demo_ABC 1%positive (mk_iter (Some 1%positive)) 1%positive
          (mk_iter (Some 2%positive)) (mk_iter (Some 3%positive)) = Done h' ∧
        ring h' [1%positive; 3%positive; 4%positive; 2%positive] ∧
        splice_reference 1 demo_ABC 1%positive 1%positive (mk_iter (Some 1%positive))
          (mk_iter (Some 2%positive)) (mk_iter (Some 3%positive)) = Done h'.
Proof.
  assert (ring demo_ABC
            (1%positive :: [] ++ 2%positive :: [] ++ 3%positive :: [4%positive]))
    as H by concrete_list.
  assert (length [2%positive] ≤ 1) as Hf by (simpl; lia).
  split; [exact H|]. split; [exact Hf|].
  destruct (splice_within_ring 1 demo_ABC 1%positive 1%positive 1%positive []
              2%positive [] 3%positive [4%positive] H Hf) as (h' & E & R & Ref & _).
  exists h'. split; [exact E|]. split; [exact R|exact Ref].
Defined.

Lemma splice_forward_in_list_witness :
  is_list demo_ABC 1%positive
    ([] ++ (2%positive :: []) ++ (3%positive :: [4%positive]) ++ []) ∧
  ∃ h', IList.splice demo_ABC 1%positive (mk_iter (Some 1%positive)) 1%positive
          (mk_iter (Some 2%positive)) (mk_iter (Some 3%positive)) = Done h' ∧
        is_list h' 1%positive [3%positive; 4%positive; 2%positive].
Proof.
  assert (is_list demo_ABC 1%positive
            ([] ++ (2%positive :: []) ++ (3%positive :: [4%positive]) ++ []))
    as H by concrete_list.
  split; [exact H|].
  exact (splice_forward_in_list demo_ABC 1%positive [] 2%positive [] 3%positive
           [4%positive] [] H).
Defined.

Lemma splice_backward_in_list_witness :
  is_list demo_ABC 1%positive
    ([] ++ (2%positive :: []) ++ (3%positive :: []) ++ [4%positive]) ∧
  ∃ h', IList.splice demo_ABC 1%positive (mk_iter (Some 2%positive)) 1%positive
          (mk_iter (Some 3%positive)) (mk_iter (Some 4%positive)) = Done h' ∧
        is_list h' 1%positive [3%positive; 2%positive; 4%positive].
Proof.
  assert (is_list demo_ABC 1%positive
            ([] ++ (2%positive :: []) ++ (3%positive :: []) ++ [4%positive]))
    as H by concrete_list.
  split; [exact H|].
  exact (splice_backward_in_list demo_ABC 1%positive [] 2%positive [] 3%positive
           [] [4%positive] H).
Defined.

Lemma unlink_keeps_node_invariant_witness :
  wf demo_AB ∧ alloc demo_AB 2%positive ∧ ¬ unlinked demo_AB 2%positive ∧
  ¬ links demo_AB 2%positive 2%positive ∧
  ∃ h', Base.unlink demo_AB 2%positive = Done h' ∧
        Base.try_unlink demo_AB 2%positive = Done h' ∧
        wf h' ∧ unlinked h' 2%positive.
Proof.
  assert (wf demo_AB) as H by concrete_wf.
  assert (alloc demo_AB 2%positive) as Ha by (eexists; reflexivity).
  assert (¬ unlinked demo_AB 2%positive) as Hl by (intros Hu; discriminate Hu).
  assert (¬ links demo_AB 2%positive 2%positive) as Hs
    by (intros [Hs _]; discriminate Hs).
  split; [exact H|]. split; [exact Ha|]. split; [exact Hl|]. split; [exact Hs|].
  exact (unlink_keeps_node_invariant demo_AB 2%positive H Ha Hl Hs).
Defined.

Lemma insert_keeps_node_invariant_witness :
  wf demo_AB ∧ alloc demo_AB 1%positive ∧ ¬ unlinked demo_AB 1%positive ∧
  unlinked demo_AB 4%positive ∧
  ∃ h' p, Base.insert demo_AB 1%positive 4%positive = Done h' ∧
          wf h' ∧
          links demo_AB p 1%positive ∧ links h' p 4%positive ∧
          links h' 4%positive 1%positive.
Proof.
  assert (wf demo_AB) as H by concrete_wf.
  assert (alloc demo_AB 1%positive) as Ha by (eexists; reflexivity).
  assert (¬ unlinked demo_AB 1%positive) as Hl by (intros Hu; discriminate Hu).
  assert (unlinked demo_AB 4%positive) as Hu by reflexivity.
  split; [exact H|]. split; [exact Ha|]. split; [exact Hl|]. split; [exact Hu|].
  exact (insert_keeps_node_invariant demo_AB 1%positive 4%positive H Ha Hl Hu).
Defined.

Lemma splice_keeps_node_invariant_witness :
  wf demo_ABC ∧
  (1%positive ≠ 2%positive ∧ 1%positive ≠ 3%positive) ∧
  ∃ h', Base.splice demo_ABC 1%positive 2%positive 3%positive = Done h' ∧ wf h'.
Proof.
  assert (wf demo_ABC) as H by concrete_wf.
  assert (∀ a, a ∈ [1%positive; 2%positive; 3%positive] →
            alloc demo_ABC a ∧ ¬ unlinked demo_ABC a) as Hall.
  { intros a Ha. rewrite !elem_of_cons in Ha.
    destruct Ha as [->|[->|[->|Ha]]]; [| | |by apply elem_of_nil in Ha];
      (split; [eexists; reflexivity|intros Hu; discriminate Hu]). }
  assert ((1%positive : addr) ≠ 2%positive ∧ (1%positive : addr) ≠ 3%positive) as Hne
    by (split; discriminate).
  split; [exact H|]. split; [exact Hne|].
  refine (splice_keeps_node_invariant demo_ABC 1%positive 2%positive 3%positive H
            (proj1 (Hall 1%positive _)) (proj2 (Hall 1%positive _))
            (proj1 (Hall 2%positive _)) (proj2 (Hall 2%positive _))
            (proj1 (Hall 3%positive _)) (proj2 (Hall 3%positive _))
            (or_intror Hne)); set_solver.
Defined.

Lemma clear_keeps_node_invariant_witness :
  wf demo_AB ∧
  is_list demo_AB 1%positive [2%positive; 3%positive] ∧
  length [2%positive; 3%positive] ≤ 2 ∧
  ∃ h', Base.clear 2 demo_AB 1%positive = Done h' ∧
        wf h' ∧
        (∀ b g, b ∉ [1%positive; 2%positive; 3%positive] → rd h' b g = rd demo_AB b g).
Proof.
  assert (wf demo_AB) as H by concrete_wf.
  assert (is_list demo_AB 1%positive [2%positive; 3%positive]) as Hl by concrete_list.
  assert (length [2%positive; 3%positive] ≤ 2) as Hf by (simpl; lia).
  split; [exact H|]. split; [exact Hl|]. split; [exact Hf|].
  exact (clear_keeps_node_invariant 2 demo_AB 1%positive [2%positive; 3%positive]
           H Hl Hf).
Defined.

Lemma lists_are_independent_witness :
  is_list demo_two 1%positive [2%positive; 3%positive] ∧
  is_list demo_two 5%positive [4%positive] ∧
  (∃ h' it, IList.erase demo_two 1%positive (mk_iter (Some 2%positive))
              = Done (h', it) ∧
            is_list h' 5%positive [4%positive]) ∧
  (∃ h', IList.clear 2 demo_two 1%positive = Done h' ∧
         is_list h' 5%positive [4%positive]).
Proof.
  assert (is_list demo_two 1%positive [2%positive; 3%positive]) as HX by concrete_list.
  assert (is_list demo_two 5%positive [4%positive]) as HY by concrete_list.
  assert (∀ a : addr, a ∈ [1%positive; 2%positive; 3%positive] →
            a ∉ [5%positive; 4%positive]) as Hd by concrete_disjoint.
  assert (2%positive ∈ [2%positive; 3%positive]) as Hin by (apply elem_of_cons; by left).
  assert (length [2%positive; 3%positive] ≤ 2) as Hf by (simpl; lia).
  destruct (lists_are_independent 2 demo_two 1%positive [2%positive; 3%positive]
              5%positive [4%positive] HX HY Hd) as (He & _ & Hc).
  split; [exact HX|]. split; [exact HY|]. split.
  - exact (He 2%positive Hin).
  - exact (Hc Hf).
Defined.
Lemma triswap_rotates_witness :
  rd demo_ABC 1%positive Next = Some (Some 2%positive) ∧
  rd demo_ABC 2%positive Next = Some (Some 3%positive) ∧
  rd demo_ABC 3%positive Next = Some (Some 4%positive) ∧
  ∃ h1, Base.triswap demo_ABC (1%positive, Next) (2%positive, Next) (3%positive, Next)
          = Done h1 ∧
        rd h1 1%positive Next = Some (Some 3%positive) ∧
        rd h1 2%positive Next = Some (Some 4%positive) ∧
        rd h1 3%positive Next = Some (Some 2%positive) ∧
        (h2 ← Base.triswap h1 (1%positive, Next) (2%positive, Next) (3%positive, Next);
         Base.triswap h2 (1%positive, Next) (2%positive, Next) (3%positive, Next))
          = Done demo_ABC.
Proof.
  assert (rd demo_ABC 1%positive Next = Some (Some 2%positive)) as Ha by reflexivity.
  assert (rd demo_ABC 2%positive Next = Some (Some 3%positive)) as Hb by reflexivity.
  assert (rd demo_ABC 3%positive Next = Some (Some 4%positive)) as Hc by reflexivity.
  assert (((1%positive, Next) : lvalue) ≠ (2%positive, Next)) as Hab by discriminate.
  assert (((2%positive, Next) : lvalue) ≠ (3%positive, Next)) as Hbc by discriminate.
  assert (((1%positive, Next) : lvalue) ≠ (3%positive, Next)) as Hac by discriminate.
  split; [exact Ha|]. split; [exact Hb|]. split; [exact Hc|].
  destruct (triswap_rotates demo_ABC (1%positive, Next) (2%positive, Next)
              (3%positive, Next) _ _ _ Hab Hbc Hac Ha Hb Hc)
    as (h1 & E & H1 & H2 & H3 & _ & R).
  exists h1. split; [exact E|]. split; [exact H1|]. split; [exact H2|].
  split; [exact H3|exact R].
Defined.

Lemma triswap_aliased_witness :
  rd demo_ABC 1%positive Next = Some (Some 2%positive) ∧
  rd demo_ABC 2%positive Next = Some (Some 3%positive) ∧
  rd demo_ABC 3%positive Next = Some (Some 4%positive) ∧
  Base.triswap demo_ABC (1%positive, Next) (2%positive, Next) (1%positive, Next)
    = Done demo_ABC ∧
  Base.triswap demo_ABC (1%positive, Next) (1%positive, Next) (3%positive, Next)
    = Done (upd (upd demo_ABC 1%positive Next (Some 4%positive))
              3%positive Next (Some 2%positive)).
Proof.
  assert (rd demo_ABC 1%positive Next = Some (Some 2%positive)) as Ha by reflexivity.
  assert (rd demo_ABC 2%positive Next = Some (Some 3%positive)) as Hb by reflexivity.
  assert (rd demo_ABC 3%positive Next = Some (Some 4%positive)) as Hc by reflexivity.
  assert (((1%positive, Next) : lvalue) ≠ (3%positive, Next)) as Hac by discriminate.
  split; [exact Ha|]. split; [exact Hb|]. split; [exact Hc|].
  destruct (triswap_aliased demo_ABC (1%positive, Next) (2%positive, Next)
              (3%positive, Next) _ _ _ Ha Hb Hc) as [H1 H2].
  split; [exact H1|exact (H2 Hac)].
Defined.

Lemma swap_by_moves_exchanges_witness :
  is_list demo_two 1%positive [2%positive; 3%positive] ∧
  is_list demo_two 5%positive [4%positive] ∧
  demo_two !! 6%positive = None ∧
  ∃ h', swap_by_moves 0 demo_two 1%positive 5%positive 6%positive = Done h' ∧
        is_list h' 1%positive [4%positive] ∧
        is_list h' 5%positive [2%positive; 3%positive] ∧
        h' !! 6%positive = None.
Proof.
  assert (is_list demo_two 1%positive [2%positive; 3%positive]) as HX by concrete_list.
  assert (is_list demo_two 5%positive [4%positive]) as HY by concrete_list.
  assert (∀ a : addr, a ∈ [1%positive; 2%positive; 3%positive] →
            a ∉ [5%positive; 4%positive]) as Hd by concrete_disjoint.
  assert (demo_two !! 6%positive = None) as Hf by reflexivity.
  split; [exact HX|]. split; [exact HY|]. split; [exact Hf|].
  destruct (swap_by_moves_exchanges 0 demo_two 1%positive 5%positive 6%positive
              [2%positive; 3%positive] [4%positive] HX HY Hd Hf)
    as (h' & E & L1 & L2 & Ht & _).
  exists h'. split; [exact E|]. split; [exact L1|]. split; [exact L2|exact Ht].
Defined.

Lemma destroy_leaves_no_dangling_pointer_witness :
  wf demo_AB ∧ alloc demo_AB 2%positive ∧ ¬ links demo_AB 2%positive 2%positive ∧
  ∃ h', Element.destroy demo_AB 2%positive = Done h' ∧
        wf h' ∧
        h' !! 2%positive = None ∧
        (∀ b g, rd h' b g ≠ Some (Some 2%positive)).
Proof.
  assert (wf demo_AB) as H by concrete_wf.
  assert (alloc demo_AB 2%positive) as Ha by (eexists; reflexivity).
  assert (¬ links demo_AB 2%positive 2%positive) as Hs
    by (intros [Hs _]; discriminate Hs).
  split; [exact H|]. split; [exact Ha|]. split; [exact Hs|].
  exact (destroy_leaves_no_dangling_pointer demo_AB 2%positive H Ha Hs).
Defined.

Lemma list_dtor_leaves_no_dangling_pointer_witness :
  wf demo_AB ∧
  is_list demo_AB 1%positive [2%positive; 3%positive] ∧
  length [2%positive; 3%positive] ≤ 2 ∧
  ∃ h', IList.dtor 2 demo_AB 1%positive = Done h' ∧
        (∀ x, x ∈ [2%positive; 3%positive] → unlinked h' x) ∧
        wf (delete 1%positive h') ∧
        (∀ b g, rd (delete 1%positive h') b g ≠ Some (Some 1%positive)).
Proof.
  assert (wf demo_AB) as H by concrete_wf.
  assert (is_list demo_AB 1%positive [2%positive; 3%positive]) as Hl by concrete_list.
  assert (length [2%positive; 3%positive] ≤ 2) as Hf by (simpl; lia).
  split; [exact H|]. split; [exact Hl|]. split; [exact Hf|].
  exact (list_dtor_leaves_no_dangling_pointer 2 demo_AB 1%positive
           [2%positive; 3%positive] H Hl Hf).
Defined.

Lemma constructors_establish_invariant_witness :
  wf demo_AB ∧ demo_AB !! 5%positive = None ∧
  (is_list (IList.ctor demo_AB 5%positive) 5%positive [] ∧
   IList.empty (IList.ctor demo_AB 5%positive) 5%positive = Done true ∧
   IList.begin (IList.ctor demo_AB 5%positive) 5%positive
     = Done (IList.end_ 5%positive) ∧
   wf (IList.ctor demo_AB 5%positive)) ∧
  (unlinked (Element.ctor demo_AB 5%positive) 5%positive ∧
   wf (Element.ctor demo_AB 5%positive)).
Proof.
  assert (wf demo_AB) as H by concrete_wf.
  assert (demo_AB !! 5%positive = None) as Hf by reflexivity.
  split; [exact H|]. split; [exact Hf|].
  exact (constructors_establish_invariant demo_AB 5%positive H Hf).
Defined.
